(** * mock-okta: request normalisation and response reconstruction

    A shallow embedding of [tools/mock-okta/util.js], the layer of the
    record-and-replay gateway that maps an incoming request to its tape and
    rebuilds the response (urls, state, re-signed tokens) from the tape.

    JavaScript strings are modelled as [string]: one [ascii] per code unit,
    so the model covers strings whose code units are below 256 (what Node
    gives for header values and request targets).  Objects used as maps
    (header maps, parsed query strings) are [gmap string _]; objects whose
    property order is observable through [JSON.stringify] are association
    lists.  Thrown exceptions are the [Throw] case of [result]. *)

From stdpp Require Import base option list gmap strings sorting.
From Stdlib Require Import Ascii ZArith Lia.
From Stdlib Require String.

Local Open Scope string_scope.
Local Open Scope Z_scope.
Local Open Scope nat_scope.
Local Open Scope stdpp_scope.

(** ** Exceptions *)

Inductive error : Type :=
  | TypeError      (* property access on null/undefined, call of a non-function,
                      assignment to a property of a primitive in strict mode *)
  | SyntaxError    (* JSON.parse on malformed text *)
  | URIError       (* a malformed escape sequence, inside url.parse *)
  | LibraryError   (* raised inside jws.sign *)
  | Unsupported.   (* a regular-expression source outside the modelled fragment *)

Inductive result (A : Type) : Type :=
  | Ok (a : A)
  | Throw (e : error).
Arguments Ok {A} a.
Arguments Throw {A} e.

Definition result_bind {A B} (r : result A) (f : A → result B) : result B :=
  match r with
  | Ok a => f a
  | Throw e => Throw e
  end.

Definition result_map {A B} (f : A → B) (r : result A) : result B :=
  result_bind r (λ a, Ok (f a)).

Definition is_Ok {A} (r : result A) : Prop := ∃ a, r = Ok a.

Global Instance Ok_inj {A} : Inj (=) (=) (@Ok A).
Proof. by intros x y [= ->]. Qed.

(** ** String primitives of the language *)

Definition ascii_in (c : ascii) (l : list ascii) : bool :=
  existsb (Ascii.eqb c) l.

(** [s.slice(0, -1)] *)
Fixpoint slice_0_m1 (s : string) : string :=
  match s with
  | "" => ""
  | String c "" => ""
  | String c s' => String c (slice_0_m1 s')
  end.

Fixpoint str_drop (n : nat) (s : string) : string :=
  match n, s with
  | 0, _ => s
  | S n', String _ s' => str_drop n' s'
  | S _, "" => ""
  end.

Fixpoint str_take (n : nat) (s : string) : string :=
  match n, s with
  | 0, _ => ""
  | S n', String c s' => String c (str_take n' s')
  | S _, "" => ""
  end.

(** First occurrence of [pat] in [s]: the text before it and the text after
    it.  [None] is [indexOf(pat) === -1]. *)
Fixpoint str_find (pat s : string) : option (string * string) :=
  if String.prefix pat s then Some ("", str_drop (String.length pat) s)
  else match s with
       | "" => None
       | String c s' =>
           match str_find pat s' with
           | Some (b, a) => Some (String c b, a)
           | None => None
           end
       end.

(** [s.indexOf(pat)], with [None] for [-1]. *)
Definition indexOf (s pat : string) : option nat :=
  match str_find pat s with
  | Some (b, _) => Some (String.length b)
  | None => None
  end.

(** [s.indexOf(pat) > -1] *)
Definition includes (s pat : string) : bool :=
  match indexOf s pat with Some _ => true | None => false end.

(** [s.indexOf(pat) === 0] *)
Definition indexOf_is_0 (s pat : string) : bool :=
  match indexOf s pat with Some 0 => true | _ => false end.

(** White space and line terminators below code unit 256: what [trim] strips
    and what [\s] matches. *)
Definition is_js_space (c : ascii) : bool :=
  ascii_in c ["009"; "010"; "011"; "012"; "013"; " "; "160"]%char.

Definition is_line_terminator (c : ascii) : bool :=
  ascii_in c ["010"; "013"]%char.

Fixpoint trim_start (s : string) : string :=
  match s with
  | String c s' => if is_js_space c then trim_start s' else s
  | "" => ""
  end.

Fixpoint trim_end (s : string) : string :=
  match s with
  | String c s' =>
      match trim_end s' with
      | "" => if is_js_space c then "" else String c ""
      | t => String c t
      end
  | "" => ""
  end.

(** [s.trim()] *)
Definition trim (s : string) : string := trim_end (trim_start s).

(** [s.split(sep)] for a one-character separator *)
Fixpoint split (sep : ascii) (s : string) : list string :=
  match s with
  | "" => [""]
  | String c s' =>
      if Ascii.eqb c sep then "" :: split sep s'
      else match split sep s' with
           | piece :: rest => String c piece :: rest
           | [] => [String c ""]
           end
  end.

(** [l.join(sep)] on an array of strings *)
Fixpoint join (sep : string) (l : list string) : string :=
  match l with
  | [] => ""
  | [x] => x
  | x :: l' => x +:+ sep +:+ join sep l'
  end.

(** [l.sort()] on an array of strings: the default comparison orders strings
    by code units, which is [String.le]. *)
Definition sort (l : list string) : list string := merge_sort String.le l.

Definition is_digit (c : ascii) : option nat := Ascii.is_nat c.

(** [GetSubstitution]: expansion of the [$] patterns of a replacement text.
    [caps] are the captures of the match ([[]] for a string pattern). *)
Definition capture_ref (caps : list (option string)) (n : nat) : option string :=
  match n with
  | 0 => None
  | S i => match caps !! i with
           | Some c => Some (default "" c)
           | None => None
           end
  end.

Fixpoint get_substitution (matched before after : string)
    (caps : list (option string)) (rep : string) : string :=
  match rep with
  | "" => ""
  | String c rest =>
      if Ascii.eqb c "$" then
        match rest with
        | "" => "$"
        | String d r =>
            if Ascii.eqb d "$" then String "$" (get_substitution matched before after caps r)
            else if Ascii.eqb d "&" then matched +:+ get_substitution matched before after caps r
            else if Ascii.eqb d "`" then before +:+ get_substitution matched before after caps r
            else if Ascii.eqb d "'" then after +:+ get_substitution matched before after caps r
            else
              match is_digit d with
              | None => String "$" (get_substitution matched before after caps rest)
              | Some n1 =>
                  let one_digit :=
                    match capture_ref caps n1 with
                    | Some t => t +:+ get_substitution matched before after caps r
                    | None => String "$" (String d (get_substitution matched before after caps r))
                    end in
                  match r with
                  | "" => one_digit
                  | String d2 r2 =>
                      match is_digit d2 with
                      | None => one_digit
                      | Some n2 =>
                          let nn := 10 * n1 + n2 in
                          if decide (nn ≤ length caps) then
                            match capture_ref caps nn with
                            | Some t => t +:+ get_substitution matched before after caps r2
                            | None =>
                                String "$" (String d (String d2
                                  (get_substitution matched before after caps r2)))
                            end
                          else one_digit
                      end
                  end
              end
        end
      else String c (get_substitution matched before after caps rest)
  end.

(** [s.replace(pat, rep)] with a string pattern: the first occurrence only. *)
Definition str_replace (pat rep s : string) : string :=
  match str_find pat s with
  | Some (b, a) => b +:+ get_substitution pat b a [] rep +:+ a
  | None => s
  end.

(** ** Regular expressions

    The fragment of the regular-expression language that the patterns of
    [util.js] use, with the backtracking semantics of the language: greedy
    quantifiers, leftmost alternative first, at most one capturing group. *)

Inductive re : Type :=
  | Chr (p : ascii → bool)                        (* one character of a class *)
  | Eoi                                           (* [$] without the m flag *)
  | Seq (a b : re)
  | Alt (a b : re)                                (* [a|b] *)
  | Opt (a : re)                                  (* [a?] *)
  | Rep (p : ascii → bool) (lo : nat) (hi : option nat)
                                                  (* [c{lo,hi}], [c+], [c*] on a class *)
  | Grp (a : re).                                 (* [(a)], capturing *)

(** [Rep p lo hi] at [s]: longest run first, then shorter ones. *)
Fixpoint rep_match {R} (p : ascii → bool) (lo : nat) (hi : option nat)
    (s : string) (k : string → option R) : option R :=
  let stop := match lo with 0 => k s | S _ => None end in
  match s with
  | "" => stop
  | String c s' =>
      if p c && negb (bool_decide (hi = Some 0)) then
        match rep_match p (pred lo) (pred <$> hi) s' k with
        | Some r => Some r
        | None => stop
        end
      else stop
  end.

(** The matcher, in continuation-passing style: [k] receives the rest of the
    input and the capture. *)
Fixpoint re_run {R} (r : re) (s : string) (cap : option string)
    (k : string → option string → option R) : option R :=
  match r with
  | Chr p =>
      match s with
      | String c s' => if p c then k s' cap else None
      | "" => None
      end
  | Eoi => match s with "" => k s cap | _ => None end
  | Seq a b => re_run a s cap (λ s' cap', re_run b s' cap' k)
  | Alt a b =>
      match re_run a s cap k with
      | Some x => Some x
      | None => re_run b s cap k
      end
  | Opt a =>
      match re_run a s cap k with
      | Some x => Some x
      | None => k s cap
      end
  | Rep p lo hi => rep_match p lo hi s (λ s', k s' cap)
  | Grp a =>
      re_run a s cap
        (λ s' _, k s' (Some (str_take (String.length s - String.length s') s)))
  end.

Fixpoint re_groups (r : re) : nat :=
  match r with
  | Chr _ | Eoi | Rep _ _ _ => 0
  | Seq a b | Alt a b => re_groups a + re_groups b
  | Opt a => re_groups a
  | Grp a => S (re_groups a)
  end.

Record re_result : Type := ReResult {
  m_before : string;
  m_matched : string;
  m_cap : option string;
  m_after : string;
}.

(** A match starting at the first character of [s]. *)
Definition re_here (r : re) (s : string) : option (string * option string) :=
  re_run r s None (λ s' cap, Some (s', cap)).

(** [r.exec(s)] from index 0: the leftmost match. *)
Fixpoint re_exec (r : re) (s : string) : option re_result :=
  match re_here r s with
  | Some (s', cap) =>
      Some (ReResult "" (str_take (String.length s - String.length s') s) cap s')
  | None =>
      match s with
      | "" => None
      | String c s1 =>
          match re_exec r s1 with
          | Some m => Some (ReResult (String c (m_before m)) (m_matched m) (m_cap m) (m_after m))
          | None => None
          end
      end
  end.

(** [s.match(r)[1]] for a pattern without the g flag: [null[1]] throws. *)
Definition match_1 (r : re) (s : string) : result string :=
  match re_exec r s with
  | Some m => Ok (default "" (m_cap m))
  | None => Throw TypeError
  end.

Definition caps_of (r : re) (cap : option string) : list (option string) :=
  match re_groups r with
  | 0 => []
  | S _ => [cap]
  end.

(** [s.replace(r, rep)] for a pattern with the g flag.  [done] is the text
    already passed (the [$`] of later matches includes it); the fuel bounds
    the number of matches and [re_replace_all] gives enough of it. *)
Fixpoint re_replace_go (fuel : nat) (r : re) (rep : string) (done s : string) : string :=
  match fuel with
  | 0 => s
  | S fuel' =>
      match re_exec r s with
      | None => s
      | Some m =>
          let sub :=
            get_substitution (m_matched m) (done +:+ m_before m) (m_after m)
              (caps_of r (m_cap m)) rep in
          let done' := done +:+ m_before m +:+ m_matched m in
          m_before m +:+ sub +:+
            match m_matched m, m_after m with
            | "", String c rest =>
                String c (re_replace_go fuel' r rep (done' +:+ String c "") rest)
            | "", "" => ""
            | _, rest => re_replace_go fuel' r rep done' rest
            end
      end
  end.

Definition re_replace_all (r : re) (rep : string) (s : string) : string :=
  re_replace_go (S (String.length s)) r rep "" s.

(** Pattern builders *)

(** A literal character. *)
Definition lit_chr (c : ascii) : re := Chr (Ascii.eqb c).

Definition ascii_upper (c : ascii) : ascii :=
  let n := nat_of_ascii c in
  if (97 <=? n) && (n <=? 122) then ascii_of_nat (n - 32) else c.

(** A literal character under the i flag.  The patterns here put only the
    letters A-Z under that flag; no code unit above 127 folds to them. *)
Definition lit_chr_i (c : ascii) : re :=
  Chr (λ x, Ascii.eqb (ascii_upper x) (ascii_upper c)).

Definition dot : ascii → bool := λ c, negb (is_line_terminator c).

Definition not_chr (c : ascii) : ascii → bool := λ x, negb (Ascii.eqb x c).

Fixpoint seq_of (f : ascii → re) (s : string) (tail : re) : re :=
  match s with
  | "" => tail
  | String c s' => Seq (f c) (seq_of f s' tail)
  end.

(** [lits s tail] is the text [s] followed by [tail]. *)
Definition lits (s : string) (tail : re) : re := seq_of lit_chr s tail.

(** The empty pattern: an optional that never takes its branch is avoided by
    ending sequences with a zero-width [Rep]. *)
Definition re_eps : re := Rep (λ _, false) 0 (Some 0).

(** Characters of a pattern source that stand for themselves. *)
Definition is_syntax_char (c : ascii) : bool :=
  ascii_in c ["^"; "$"; "\"; "."; "*"; "+"; "?"; "("; ")"; "["; "]"; "{"; "}"; "|"]%char.

(** A piece of pattern source spliced into a [new RegExp(...)] template: the
    model reads sources made of ordinary characters and [.]; a source with
    another syntax character is [Unsupported]. *)
Fixpoint source_atoms (src : string) : option (list (ascii → bool)) :=
  match src with
  | "" => Some []
  | String c src' =>
      match source_atoms src' with
      | None => None
      | Some l =>
          if Ascii.eqb c "." then Some (dot :: l)
          else if is_syntax_char c then None
          else Some (Ascii.eqb c :: l)
      end
  end.

Definition chrs (l : list (ascii → bool)) (tail : re) : re :=
  foldr (λ p acc, Seq (Chr p) acc) tail l.

(** ** Data model *)

(** A value of a parsed query string: [querystring.parse] gives a string, or
    an array of strings for a repeated key.  A missing key reads [undefined],
    which is [None] at the lookup. *)
Inductive qval : Type :=
  | QStr (s : string)
  | QArr (l : list string).

Global Instance qval_eq_dec : EqDecision qval.
Proof. solve_decision. Defined.

(** A template literal [`${v}`] *)
Definition tmpl (v : option qval) : string :=
  match v with
  | None => "undefined"
  | Some (QStr s) => s
  | Some (QArr l) => join "," l
  end.

(** [`${v}`] for a value that is a string or [null] *)
Definition tmpl_null (v : option string) : string := default "null" v.

(** Truthiness of a header value or of a string-or-null field *)
Definition truthy (v : option string) : bool :=
  match v with
  | Some (String _ _) => true
  | _ => false
  end.

(** Values held in token headers and claims. *)
#[warnings="-register-all"]
Inductive jsval : Type :=
  | JUndefined
  | JNull
  | JBool (b : bool)
  | JNum (z : Z)
  | JStr (s : string)
  | JArr (l : list jsval)
  | JObj (o : list (string * jsval)).

Definition jsval_of_query (v : option qval) : jsval :=
  match v with
  | None => JUndefined
  | Some (QStr s) => JStr s
  | Some (QArr l) => JArr (JStr <$> l)
  end.

(** Own properties of an object, in insertion order. *)
Fixpoint obj_set (o : list (string * jsval)) (key : string) (v : jsval) : list (string * jsval) :=
  match o with
  | [] => [(key, v)]
  | (k, w) :: o' => if decide (k = key) then (k, v) :: o' else (k, w) :: obj_set o' key v
  end.

Fixpoint obj_get (o : list (string * jsval)) (key : string) : jsval :=
  match o with
  | [] => JUndefined
  | (k, w) :: o' => if decide (k = key) then w else obj_get o' key
  end.

(** [x.key = v] in strict mode.  A named property put on an array is not part
    of what [JSON.stringify] writes, so the array is left as it is. *)
Definition set_prop (x : jsval) (key : string) (v : jsval) : result jsval :=
  match x with
  | JObj o => Ok (JObj (obj_set o key v))
  | JArr l => Ok (JArr l)
  | _ => Throw TypeError
  end.

(** [x.key] *)
Definition get_prop (x : jsval) (key : string) : jsval :=
  match x with
  | JObj o => obj_get o key
  | _ => JUndefined
  end.

(** ** Logger helper functions: what [logDiff] throws

    [toString(val)] makes a text of an array, a number and a boolean, and
    returns [val || ''] otherwise: a text, or the value itself when it is an
    object that is not an array. *)
Definition diffable (val : jsval) : bool :=
  match val with
  | JObj _ => false
  | _ => true
  end.

(** [logDiff(title, before, after)], for the exception it can throw.  For
    every key of [before] it hands [toString(before[key])] and
    [toString(after[key])] to [diff.diffChars], which splits its arguments
    into characters: an argument that is not a text has no [split], a
    [TypeError].  The table that is printed (by cli-table2, chalk and debug,
    taken not to throw) is left out.  [before] is the copy made by
    [Object.assign({}, x)]: it has the members of an object and the elements
    of an array, which the named properties put on the array later do not
    change. *)
Definition logDiff (before after : jsval) : result unit :=
  let texts :=
    match before with
    | JObj o =>
        forallb (λ member, diffable (obj_get o member.1)
                           && diffable (get_prop after member.1)) o
    | JArr l => forallb diffable l
    | _ => true
    end in
  if texts then Ok () else Throw TypeError.

(** The result of [url.parse]: the fields the code reads. *)
Record UrlObject : Type := {
  protocol : option string;
  host : option string;
  hostname : option string;
  port : option string;
  query : option string;
}.

(** The result of [jws.decode].  [payload] is the text that [JSON.parse]
    makes of [decoded.payload]: the payload itself, or, for a token whose
    header has the type [JWT], the text of the payload that the library has
    parsed already. *)
Record Decoded : Type := {
  header : jsval;
  payload : string;
  signature : string;
}.

(** An incoming request: [req.method], [req.url], [req.headers] *)
Record Request : Type := {
  method : string;
  url : string;
  headers : gmap string string;
}.

(** What [mapRequestToCache] returns: the values taken out of the request. *)
Record SessionData : Type := {
  isAuthorizeReq : bool;
  responseMode : option qval;
  state : option qval;
  nonce : option qval;
  cookie : option string;
  isRedirectCallback : bool;
  isTokenReq : bool;
}.

Definition no_session : SessionData :=
  {| isAuthorizeReq := false; responseMode := None; state := None; nonce := None;
     cookie := None; isRedirectCallback := false; isTokenReq := false |}.

(** The [data] argument of the response functions: the three urls of the
    endpoint configuration together with the request's session data. *)
Record Data : Type := {
  proxy : string;
  proxied : string;
  cdn : string;
  session : SessionData;
}.

(** The [data] argument of the token swappers *)
Record Patch : Type := {
  patch_nonce : option qval;
  patch_iss : string;
  patch_at_hash : option string;
}.

(** A header value of a recorded response: Node gives a string, or an array
    of strings for [set-cookie]. *)
Inductive hval : Type :=
  | HStr (s : string)
  | HArr (l : list string).

(** ** The modules the code requires

    [url], [querystring], [jws], [oidc-token-hash], [JSON], the clock and the
    key file [./keys-test] are not part of the repository's source; the code
    is embedded over their interface. *)
Class Deps : Type := {
  url_parse : string → UrlObject;              (* the object [url.parse] returns *)
  url_parse_throws : string → option error;    (* the exception, where it throws instead *)
  querystring_parse : option string → gmap string qval;
  jws_decode : string → result (option Decoded);
    (* [null] is [None]; the library parses the payload of a token whose header
       has the type [JWT], and throws when that payload is not JSON *)
  jws_sign : jsval → jsval → string → result string;            (* header, payload, secret *)
  JSON_parse : string → result jsval;
  tokenHash_generate : string → string → string;
  Date_getTime : nat → Z;           (* the k-th reading of the clock, in milliseconds *)
  keys_publicJwk_kid : string;
  keys_privatePem : string;
  keys_accessToken : string;
}.

(** ** Computations that read the clock and may throw *)

Definition M (A : Type) : Type := nat → result (A * nat).

Definition ret {A} (a : A) : M A := λ n, Ok (a, n).
Definition bind {A B} (m : M A) (f : A → M B) : M B :=
  λ n, match m n with
       | Ok (a, n') => f a n'
       | Throw e => Throw e
       end.
Definition lift {A} (r : result A) : M A :=
  λ n, match r with Ok a => Ok (a, n) | Throw e => Throw e end.

Notation "'let*' x ':=' m 'in' k" := (bind m (λ x, k))
  (at level 10, x name, m at level 100, k at level 200, only parsing).
Notation "'let+' x ':=' m 'in' k" := (result_bind m (λ x, k))
  (at level 10, x name, m at level 100, k at level 200, only parsing).

(** ** Transform: incoming request *)

(** [/ADRUM[^;]+(;|$)\s*/gi] *)
Definition re_adrum : re :=
  seq_of lit_chr_i "ADRUM"
    (Seq (Rep (not_chr ";") 1 None)
       (Seq (Grp (Alt (lit_chr ";") Eoi))
          (Rep is_js_space 0 None))).

Definition user_agent : string :=
  "Mozilla/5.0 (Macintosh; Intel Mac OS X 10.10; rv:48.0) Gecko/20100101 Firefox/48.0".

Definition accept_html : string :=
  "text/html,application/xhtml+xml,application/xml;q=0.9,image/webp,*/*;q=0.8".

Section Util.
Context `{Deps}.

(** [url.parse(u)]: an exception on the texts the library rejects, the
    parsed object on the others. *)
Definition parse_url (u : string) : result UrlObject :=
  match url_parse_throws u with
  | Some e => Throw e
  | None => Ok (url_parse u)
  end.

(** [util.parseQuery] *)
Definition parseQuery (urlStr : string) : result (gmap string qval) :=
  let+ parsed := parse_url urlStr in
  Ok (querystring_parse (query parsed)).

(** [util.mapRequestToCache].  The request is changed in place: the result is
    the request as the call leaves it, and the returned data or the exception
    thrown.  The closing [logDiff] is left out: it is given header maps, whose
    values are texts, and throws on none. *)
Definition mapRequestToCache (req : Request) (record : bool) : Request * result SessionData :=
  let hs := headers req in
  let isPreflight := truthy (hs !! "access-control-request-method") in
  let hs := delete "upgrade-insecure-requests" hs in
  let hs := delete "x-okta-user-agent-extended" hs in
  let hs := delete "if-none-match" hs in
  let hs := delete "if-modified-since" hs in
  let hs := delete "expect" hs in
  let hs := delete "referer" hs in
  let hs := <["user-agent" := user_agent]> hs in
  let hs := <["connection" := "keep-alive"]> hs in
  let hs := <["accept-language" := "en-US"]> hs in
  let hs := <["accept-encoding" := "gzip"]> hs in
  let hs :=
    if truthy (hs !! "accept") then
      let accept := default "" (hs !! "accept") in
      if includes accept "text/html" then <["accept" := accept_html]> hs
      else if includes accept "json" then <["accept" := "application/json"]> hs
      else <["accept" := "*/*"]> hs
    else hs in
  let hs :=
    if negb isPreflight && includes (url req) "/api/v1"
    then <["content-type" := "application/json"]> hs else hs in
  let preflight : gmap string string * result unit :=
    if isPreflight then
      let hs :=
        if decide (hs !! "content-length" = Some "0")
        then delete "content-length" hs else hs in
      match hs !! "access-control-request-headers" with
      | Some v =>
          (<["access-control-request-headers" :=
               join ", " (sort (filter (λ header, header ∉ ["accept"; "origin"])
                                  (trim <$> split "," v)))]> hs, Ok ())
      | None => (hs, Throw TypeError)
      end
    else (hs, Ok ()) in
  match preflight with
  | (hs, Throw e) => ({| method := method req; url := url req; headers := hs |}, Throw e)
  | (hs, Ok _) =>
      let hs := <["cookie" := if truthy (hs !! "cookie")
                              then default "" (hs !! "cookie") else ""]> hs in
      let hs := <["cookie" := re_replace_all re_adrum "" (default "" (hs !! "cookie"))]> hs in
      let hs := <["cache-control" := "no-cache, no-store"]> hs in
      let hs := <["pragma" := "no-cache"]> hs in
      if includes (url req) "authorize?" then
        match parseQuery (url req) with
        | Throw e => ({| method := method req; url := url req; headers := hs |}, Throw e)
        | Ok query =>
            let url' :=
              str_replace "profile%20email%20openid" "openid%20profile%20email"
                (str_replace ("nonce=" +:+ tmpl (query !! "nonce")) "nonce=NONCE"
                   (str_replace ("state=" +:+ tmpl (query !! "state")) "state=STATE"
                      (url req))) in
            ({| method := method req; url := url'; headers := delete "cookie" hs |},
             Ok {| isAuthorizeReq := true;
                   responseMode := query !! "response_mode";
                   state := query !! "state";
                   nonce := query !! "nonce";
                   cookie := hs !! "cookie";
                   isRedirectCallback := false;
                   isTokenReq := false |})
        end
      else if decide (url req = "/api/v1/authn") then
        ({| method := method req; url := url req; headers := delete "cookie" hs |},
         Ok {| isAuthorizeReq := false; responseMode := None; state := None; nonce := None;
               cookie := hs !! "cookie";
               isRedirectCallback := false; isTokenReq := false |})
      else if includes (url req) "/sessions/me" && bool_decide (method req = "DELETE") then
        ({| method := method req; url := url req; headers := hs |},
         Ok {| isAuthorizeReq := false; responseMode := None; state := None; nonce := None;
               cookie := hs !! "cookie";
               isRedirectCallback := false; isTokenReq := false |})
      else if indexOf_is_0 (url req) "/oauth2/v1/authorize/redirect" then
        ({| method := method req; url := url req; headers := hs |},
         Ok {| isAuthorizeReq := false; responseMode := None; state := None; nonce := None;
               cookie := None;
               isRedirectCallback := true; isTokenReq := false |})
      else if indexOf_is_0 (url req) "/oauth2/default/v1/token" then
        ({| method := method req; url := url req; headers := hs |},
         Ok {| isAuthorizeReq := false; responseMode := None; state := None; nonce := None;
               cookie := None;
               isRedirectCallback := false; isTokenReq := true |})
      else if negb record && includes (url req) "/oauth2/default/v1/userinfo" then
        ({| method := method req; url := url req;
            headers := <["authorization" := "Bearer " +:+ keys_accessToken]> hs |},
         Ok no_session)
      else
        ({| method := method req; url := url req; headers := hs |}, Ok no_session)
  end.

(** ** Transform: outgoing response *)

(** The two patterns of [replaceUrls], from the parsed urls. *)
Definition upstream_pattern (proto : string) (proxiedUrl : UrlObject) : result re :=
  match source_atoms (slice_0_m1 proto),
        source_atoms (tmpl_null (hostname proxiedUrl)),
        source_atoms (default "" (port proxiedUrl)) with
  | Some ps, Some hs, Some qs =>
      Ok (chrs ps (Seq (Rep dot 3 (Some 12))
            (chrs hs (if truthy (port proxiedUrl)
                      then Seq (Rep dot 1 (Some 4)) (chrs qs re_eps)
                      else re_eps))))
  | _, _, _ => Throw Unsupported
  end.

Definition cdn_pattern (cdnUrl : UrlObject) : result re :=
  match source_atoms (tmpl_null (host cdnUrl)) with
  | Some hs => Ok (Seq (Opt (Grp (lits "https:" re_eps))) (lits "//" (chrs hs re_eps)))
  | None => Throw Unsupported
  end.

(** [replaceUrls] *)
Definition replaceUrls (str : string) (data : Data) : result string :=
  let+ proxiedUrl := parse_url (proxied data) in
  let+ proto := match protocol proxiedUrl with
                | Some p => Ok p
                | None => Throw TypeError           (* null.slice *)
                end in
  let+ cdnUrl := parse_url (cdn data) in
  let+ escapes := upstream_pattern proto proxiedUrl in
  let+ cdnp := cdn_pattern cdnUrl in
  let patterns := [escapes; cdnp] in
  Ok (foldl (λ memo p, re_replace_all p (proxy data) memo) str patterns).

(** [new Date().getTime()] *)
Definition now : M Z := λ n, Ok (Date_getTime n, S n).

(** [jws.decode(token)] followed by the read of [decoded.header], which
    throws when the token did not decode. *)
Definition decode_token (token : string) : result Decoded :=
  let+ decoded := jws_decode token in
  match decoded with
  | Some d => Ok d
  | None => Throw TypeError
  end.

(** [swapIdToken].  [header] and [decoded.header] are one object, so the
    header that is signed has the new [kid]; [origHeader] and [origClaims]
    are the copies made before the changes. *)
Definition swapIdToken (idToken : string) (data : Patch) : M string :=
  let* decoded := lift (decode_token idToken) in
  let origHeader := header decoded in
  let* hdr := lift (set_prop (header decoded) "kid" (JStr keys_publicJwk_kid)) in
  let* _ := lift (logDiff origHeader hdr) in
  let* claims := lift (JSON_parse (payload decoded)) in
  let origClaims := claims in
  let* claims := lift (set_prop claims "nonce" (jsval_of_query (patch_nonce data))) in
  let* claims := lift (set_prop claims "iss" (JStr (patch_iss data))) in
  let* claims :=
    (* [data.at_hash != 'undefined'] *)
    if bool_decide (patch_at_hash data ≠ Some "undefined")
    then lift (set_prop claims "at_hash" (from_option JStr JUndefined (patch_at_hash data)))
    else ret claims in
  let* t := now in
  let exp := (t `div` 1000 + 3600)%Z in
  let* claims := lift (set_prop claims "exp" (JNum exp)) in
  let* _ := lift (logDiff origClaims claims) in
  lift (jws_sign hdr claims keys_privatePem).

(** [swapAccessToken] *)
Definition swapAccessToken (accessToken : string) (data : Patch) : M string :=
  let* decoded := lift (decode_token accessToken) in
  let origHeader := header decoded in
  let* hdr := lift (set_prop (header decoded) "kid" (JStr keys_publicJwk_kid)) in
  let* _ := lift (logDiff origHeader hdr) in
  let* claims := lift (JSON_parse (payload decoded)) in
  let origClaims := claims in
  let* claims := lift (set_prop claims "nonce" (jsval_of_query (patch_nonce data))) in
  let* claims := lift (set_prop claims "iss" (JStr (patch_iss data))) in
  let* t := now in
  let exp := (t `div` 1000 + 3600)%Z in
  let* claims := lift (set_prop claims "exp" (JNum exp)) in
  let* _ := lift (logDiff origClaims claims) in
  lift (jws_sign hdr claims keys_privatePem).

End Util.

(** ** The object store

    Header maps are objects: [mapCachedHeadersToResponse] receives a
    reference to the recorded map and returns a reference to a map it
    creates.  The store maps references to the objects they denote. *)

Abbreviation loc := positive (only parsing).
Abbreviation store := (gmap positive (gmap string hval)) (only parsing).

Definition alloc (σ : store) : loc := fresh (dom σ).

(** [/data.id_token = '([^']+)'/] *)
Definition re_data_id_token : re :=
  lits "data" (Seq (Chr dot) (lits "id_token = '"
    (Seq (Grp (Rep (not_chr "'") 1 None)) (lit_chr "'")))).

(** The double quote, and a quoted JSON field name followed by a colon and
    the opening quote of its value. *)
Definition dquote : ascii := "034"%char.

Definition json_field (name : string) : string :=
  String dquote name +:+ String dquote (String ":" (String dquote "")).

(** The pattern for the [access_token] field of a JSON text: the quoted name,
    a colon, and a quoted value captured by [([^Q]+)], Q the double quote. *)
Definition re_access_token : re :=
  lits (json_field "access_token") (Seq (Grp (Rep (not_chr dquote) 1 None)) (lit_chr dquote)).

(** The same pattern for the [id_token] field. *)
Definition re_id_token : re :=
  lits (json_field "id_token") (Seq (Grp (Rep (not_chr dquote) 1 None)) (lit_chr dquote)).

Section Response.
Context `{Deps}.

(** One step of the [forEach] over the keys of the recorded map: the state
    is the map built so far and whether an earlier step has thrown. *)
Definition copy_header (data : Data) (key : string) (val : hval)
    (acc : gmap string hval * result unit) : gmap string hval * result unit :=
  match acc.2 with
  | Throw e => acc
  | Ok _ =>
      match val with
      | HStr s =>
          match replaceUrls s data with
          | Ok s' => (<[key := HStr s']> acc.1, Ok ())
          | Throw e => (acc.1, Throw e)
          end
      | HArr _ => (<[key := val]> acc.1, Ok ())
      end
  end.

(** The body of [mapCachedHeadersToResponse] on the contents of the two
    objects: the recorded map, and [mapped] as the call leaves it.  The
    closing [logDiff] is left out: the values of the two maps are texts and
    arrays of texts, on which it does not throw. *)
Definition map_headers (hs : gmap string hval) (data : Data)
    : gmap string hval * result unit :=
  match map_fold (copy_header data) (∅, Ok ()) hs with
  | (mapped, Throw e) => (mapped, Throw e)
  | (mapped, Ok _) =>
      let redirect : gmap string hval * result unit :=
        if isRedirectCallback (session data) then
          match mapped !! "location" with
          | Some (HStr location) =>
              (<["location" :=
                   HStr (str_replace "state=STATE"
                           ("state=" +:+ tmpl (state (session data))) location)]> mapped,
               Ok ())
          | _ => (mapped, Throw TypeError)      (* [replace] of undefined or of an array *)
          end
        else (mapped, Ok ()) in
      match redirect with
      | (mapped, Throw e) => (mapped, Throw e)
      | (mapped, Ok _) =>
          let mapped := <["cache-control" := HStr "no-cache, no-store"]> mapped in
          let mapped := <["pragma" := HStr "no-cache"]> mapped in
          let mapped := delete "etag" mapped in
          let mapped := delete "last-modified" mapped in
          (mapped, Ok ())
      end
  end.

(** [util.mapCachedHeadersToResponse]: [headers] refers to the recorded map;
    the result is the store after the call and the reference returned. *)
Definition mapCachedHeadersToResponse (headers : loc) (data : Data) (record : bool)
    (σ : store) : store * result loc :=
  match σ !! headers with
  | None => (σ, Throw TypeError)
  | Some hs =>
      let mapped := alloc σ in
      match map_headers hs data with
      | (m, Ok _) => (<[mapped := m]> σ, Ok mapped)
      | (m, Throw e) => (<[mapped := m]> σ, Throw e)
      end
  end.

(** [util.mapCachedBodyToResponse] *)
Definition mapCachedBodyToResponse (chunk : string) (data : Data) (record : bool) : M string :=
  let* newChunk := lift (replaceUrls chunk data) in
  let issuer := proxy data +:+ "/oauth2/default" in
  let* newChunk :=
    if isAuthorizeReq (session data)
       && bool_decide (responseMode (session data) = Some (QStr "okta_post_message"))
    then
      let* idToken := lift (match_1 re_data_id_token newChunk) in
      let* newIdToken :=
        swapIdToken idToken
          {| patch_nonce := nonce (session data); patch_iss := issuer;
             patch_at_hash := None |} in
      let newChunk := str_replace idToken newIdToken newChunk in
      let* accessToken := lift (match_1 re_access_token newChunk) in
      let* newAccessToken :=
        swapAccessToken accessToken
          {| patch_nonce := nonce (session data); patch_iss := issuer;
             patch_at_hash := None |} in
      ret (str_replace accessToken newAccessToken newChunk)
    else ret newChunk in
  if isTokenReq (session data) then
    if record then
      let* idToken := lift (match_1 re_id_token newChunk) in
      let* newIdToken :=
        swapIdToken idToken
          {| patch_nonce := nonce (session data); patch_iss := issuer;
             patch_at_hash := None |} in
      ret (str_replace idToken newIdToken newChunk)
    else
      let* accessToken := lift (match_1 re_access_token newChunk) in
      let* newAccessToken :=
        swapAccessToken accessToken
          {| patch_nonce := nonce (session data); patch_iss := issuer;
             patch_at_hash := None |} in
      let newChunk := str_replace accessToken newAccessToken newChunk in
      let atHash := tokenHash_generate newAccessToken "sha256" in
      let* idToken := lift (match_1 re_id_token newChunk) in
      let* newIdToken :=
        swapIdToken idToken
          {| patch_nonce := nonce (session data); patch_iss := issuer;
             patch_at_hash := Some atHash |} in
      ret (str_replace idToken newIdToken newChunk)
  else ret newChunk.

End Response.

(** ** A reference instance of the required modules

    Used to run the code on concrete requests and responses.  [url.parse] and
    [querystring.parse] follow Node's documented behaviour on request targets
    ([/path?query]) and on absolute urls [scheme://host:port/path] made of
    ASCII characters; the token library is a small table of tokens. *)
Module Node.

(** The text before the first [c] and, when there is one, the text after it. *)
Fixpoint cut (c : ascii) (s : string) : string * option string :=
  match s with
  | "" => ("", None)
  | String x s' =>
      if Ascii.eqb x c then ("", Some s')
      else let '(b, a) := cut c s' in (String x b, a)
  end.

Definition hex_digit (c : ascii) : option nat :=
  let n := nat_of_ascii c in
  if (48 <=? n) && (n <=? 57) then Some (n - 48)
  else if (65 <=? n) && (n <=? 70) then Some (n - 55)
  else if (97 <=? n) && (n <=? 102) then Some (n - 87)
  else None.

(** [querystring.unescape] after the replacement of [+] by a space *)
Fixpoint unescape (s : string) : string :=
  match s with
  | "" => ""
  | String c s' =>
      if Ascii.eqb c "+" then String " " (unescape s')
      else if Ascii.eqb c "%" then
        match s' with
        | String h1 (String h2 s'') =>
            match hex_digit h1, hex_digit h2 with
            | Some a, Some b => String (ascii_of_nat (16 * a + b)) (unescape s'')
            | _, _ => String c (unescape s')
            end
        | _ => String c (unescape s')
        end
      else String c (unescape s')
  end.

Definition add_param (m : gmap string qval) (piece : string) : gmap string qval :=
  if decide (piece = "") then m
  else
    let '(k, v) := cut "=" piece in
    let k := unescape k in
    let v := unescape (default "" v) in
    match m !! k with
    | None => <[k := QStr v]> m
    | Some (QStr a) => <[k := QArr [a; v]]> m
    | Some (QArr l) => <[k := QArr (l ++ [v])]> m
    end.

Definition querystring_parse (q : option string) : gmap string qval :=
  match q with
  | None => ∅
  | Some q => foldl add_param ∅ (split "&" q)
  end.

Definition url_parse (u : string) : UrlObject :=
  let '(rest, _) := cut "#" u in
  let '(rest, q) := cut "?" rest in
  match str_find "://" rest with
  | Some (scheme, after) =>
      let '(authority, _) := cut "/" after in
      let '(name, p) := cut ":" authority in
      {| protocol := Some (scheme +:+ ":"); host := Some authority;
         hostname := Some name; port := p; query := q |}
  | None =>
      {| protocol := None; host := None; hostname := None; port := None; query := q |}
  end.

(** [url.parse] rejects a host that holds a bracket. *)
Definition url_parse_throws (u : string) : option error :=
  match str_find "://" u with
  | Some (_, after) =>
      let '(authority, _) := cut "/" after in
      if includes authority "[" then Some TypeError else None
  | None => None
  end.

(** Two recorded tokens and their decoded content; a token with an
    [address] claim, which is an object; and a token whose header has the
    type [JWT], whose payload [jws.decode] returns parsed, so that
    [JSON.parse] is given the text of an object. *)
Definition recorded_id_token : string := "aWQ.dG9rZW4.c2ln".
Definition recorded_access_token : string := "YWNj.dG9rZW4.c2ln".
Definition recorded_profile_token : string := "cHJv.dG9rZW4.c2ln".
Definition recorded_jwt_token : string := "and0.dG9rZW4.c2ln".

Definition jws_decode (t : string) : result (option Decoded) :=
  if decide (t = recorded_id_token) then
    Ok (Some {| header := JObj [("alg", JStr "RS256"); ("kid", JStr "recorded-kid")];
                payload := "id-claims"; signature := "c2ln" |})
  else if decide (t = recorded_access_token) then
    Ok (Some {| header := JObj [("alg", JStr "RS256"); ("kid", JStr "recorded-kid")];
                payload := "access-claims"; signature := "c2ln" |})
  else if decide (t = recorded_profile_token) then
    Ok (Some {| header := JObj [("alg", JStr "RS256"); ("kid", JStr "recorded-kid")];
                payload := "profile-claims"; signature := "c2ln" |})
  else if decide (t = recorded_jwt_token) then
    Ok (Some {| header := JObj [("typ", JStr "JWT"); ("alg", JStr "RS256")];
                payload := "[object Object]"; signature := "c2ln" |})
  else Ok None.

Definition JSON_parse (s : string) : result jsval :=
  if decide (s = "id-claims") then
    Ok (JObj [("sub", JStr "00u1"); ("iss", JStr "https://upstream.example.com:1802/oauth2/default");
              ("nonce", JStr "recorded-nonce"); ("at_hash", JStr "recorded-hash");
              ("exp", JNum 1500000000)])
  else if decide (s = "access-claims") then
    Ok (JObj [("sub", JStr "00u1"); ("iss", JStr "https://upstream.example.com:1802/oauth2/default");
              ("exp", JNum 1500000000)])
  else if decide (s = "profile-claims") then
    Ok (JObj [("sub", JStr "00u1"); ("address", JObj [("country", JStr "NO")]);
              ("exp", JNum 1500000000)])
  else Throw SyntaxError.

Definition show (v : jsval) : string :=
  match v with
  | JStr s => s
  | JUndefined => "-"
  | _ => "?"
  end.

(** A stand-in for the signature: the token names the key and the claims
    it was made from. *)
Definition jws_sign (hdr claims : jsval) (secret : string) : result string :=
  Ok ("signed." +:+ show (get_prop hdr "kid") +:+ "." +:+ show (get_prop claims "nonce")
      +:+ "." +:+ show (get_prop claims "at_hash")).

Definition tokenHash_generate (token alg : string) : string := "H" +:+ token.

End Node.

Definition node_deps : Deps :=
  {| url_parse := Node.url_parse;
     url_parse_throws := Node.url_parse_throws;
     querystring_parse := Node.querystring_parse;
     jws_decode := Node.jws_decode;
     jws_sign := Node.jws_sign;
     JSON_parse := Node.JSON_parse;
     tokenHash_generate := Node.tokenHash_generate;
     Date_getTime := λ k, (1600000000999 + Z.of_nat k)%Z;
     keys_publicJwk_kid := "mock-kid";
     keys_privatePem := "mock-private-key";
     keys_accessToken := "recorded.access.token" |}.

(** ** Notions used to state the properties *)

(** [s] does not begin with white space. *)
Definition no_lead_space (s : string) : Prop :=
  match s with
  | "" => True
  | String c _ => is_js_space c = false
  end.

(** [c] occurs in [s]. *)
Fixpoint str_mem (c : ascii) (s : string) : bool :=
  match s with
  | "" => false
  | String x s' => Ascii.eqb x c || str_mem c s'
  end.

Fixpoint str_forall (p : ascii → bool) (s : string) : bool :=
  match s with
  | "" => true
  | String x s' => p x && str_forall p s'
  end.

(** [pat] occurs in [s]. *)
Definition occurs (pat s : string) : Prop := ∃ b a, s = b +:+ pat +:+ a.

(** [Matches r w v]: the pattern [r] matches the text [w] when [v] follows
    it.  What follows matters to [Eoi] only. *)
Inductive Matches : re → string → string → Prop :=
  | M_Chr p c v : p c = true → Matches (Chr p) (String c "") v
  | M_Eoi : Matches Eoi "" ""
  | M_Seq a b w1 w2 v :
      Matches a w1 (w2 +:+ v) → Matches b w2 v → Matches (Seq a b) (w1 +:+ w2) v
  | M_Alt_l a b w v : Matches a w v → Matches (Alt a b) w v
  | M_Alt_r a b w v : Matches b w v → Matches (Alt a b) w v
  | M_Opt_some a w v : Matches a w v → Matches (Opt a) w v
  | M_Opt_none a v : Matches (Opt a) "" v
  | M_Rep p lo hi w v :
      str_forall p w = true → lo ≤ String.length w →
      (∀ h, hi = Some h → String.length w ≤ h) →
      Matches (Rep p lo hi) w v
  | M_Grp a w v : Matches a w v → Matches (Grp a) w v.

(** The least length of a match. *)
Fixpoint re_min_len (r : re) : nat :=
  match r with
  | Chr _ => 1
  | Eoi => 0
  | Seq a b => re_min_len a + re_min_len b
  | Alt a b => re_min_len a `min` re_min_len b
  | Opt _ => 0
  | Rep _ lo _ => lo
  | Grp a => re_min_len a
  end.

(** A match of [r] starts at offset [i] of [s]. *)
Definition match_at (r : re) (s : string) (i : nat) : Prop :=
  ∃ u w v, s = u +:+ w +:+ v ∧ String.length u = i ∧ Matches r w v.


(** The steps of [mapRequestToCache] on the header map, up to the first
    place of the code that can throw. *)
Definition canon_base (hs : gmap string string) : gmap string string :=
  <["accept-encoding" := "gzip"]>
    (<["accept-language" := "en-US"]>
      (<["connection" := "keep-alive"]>
        (<["user-agent" := user_agent]>
          (delete "referer" (delete "expect" (delete "if-modified-since"
            (delete "if-none-match" (delete "x-okta-user-agent-extended"
              (delete "upgrade-insecure-requests" hs))))))))).

Definition canon_accept_hdr (hs : gmap string string) : gmap string string :=
  if truthy (hs !! "accept") then
    let accept := default "" (hs !! "accept") in
    if includes accept "text/html" then <["accept" := accept_html]> hs
    else if includes accept "json" then <["accept" := "application/json"]> hs
    else <["accept" := "*/*"]> hs
  else hs.

Definition canon_ctype (isPreflight : bool) (u : string) (hs : gmap string string)
    : gmap string string :=
  if negb isPreflight && includes u "/api/v1"
  then <["content-type" := "application/json"]> hs else hs.

Definition canon_start (isPreflight : bool) (u : string) (hs : gmap string string)
    : gmap string string :=
  canon_ctype isPreflight u (canon_accept_hdr (canon_base hs)).

(** The entries of a normalised [access-control-request-headers] value, and
    the value. *)
Definition acrh_entries (v : string) : list string :=
  sort (filter (λ header, header ∉ ["accept"; "origin"]) (trim <$> split "," v)).

Definition normalize_acrh (v : string) : string := join ", " (acrh_entries v).

Definition canon_preflight (isPreflight : bool) (hs : gmap string string)
    : gmap string string * result unit :=
  if isPreflight then
    let hs :=
      if decide (hs !! "content-length" = Some "0")
      then delete "content-length" hs else hs in
    match hs !! "access-control-request-headers" with
    | Some v => (<["access-control-request-headers" := normalize_acrh v]> hs, Ok ())
    | None => (hs, Throw TypeError)
    end
  else (hs, Ok ()).

Definition scrub_cookie (c : option string) : string :=
  re_replace_all re_adrum "" (if truthy c then default "" c else "").

Definition canon_end (hs : gmap string string) : gmap string string :=
  <["pragma" := "no-cache"]>
    (<["cache-control" := "no-cache, no-store"]>
       (<["cookie" := scrub_cookie (hs !! "cookie")]> hs)).

(** The canonical headers of a request whose normalisation does not throw:
    everything but the flow-specific removal of [cookie] and the [authorization]
    header of a played-back userinfo request. *)
Definition canon (isPreflight : bool) (u : string) (hs : gmap string string)
    : gmap string string :=
  canon_end (canon_preflight isPreflight (canon_start isPreflight u hs)).1.

(** What the canonical form does to the value [v] of the header [k]: each
    step of the code reads and writes one header at a time. *)
Definition canon_accept (v : option string) : option string :=
  if truthy v then
    Some (if includes (default "" v) "text/html" then accept_html
          else if includes (default "" v) "json" then "application/json"
          else "*/*")
  else v.

Definition key_base (k : string) (v : option string) : option string :=
  if decide (k ∈ ["upgrade-insecure-requests"; "x-okta-user-agent-extended";
                  "if-none-match"; "if-modified-since"; "expect"; "referer"]) then None
  else if decide (k = "user-agent") then Some user_agent
  else if decide (k = "connection") then Some "keep-alive"
  else if decide (k = "accept-language") then Some "en-US"
  else if decide (k = "accept-encoding") then Some "gzip"
  else v.

Definition key_accept (k : string) (v : option string) : option string :=
  if decide (k = "accept") then canon_accept v else v.

Definition key_ctype (pre api : bool) (k : string) (v : option string) : option string :=
  if decide (k = "content-type")
  then (if negb pre && api then Some "application/json" else v) else v.

Definition key_preflight (pre : bool) (k : string) (v : option string) : option string :=
  if pre then
    if decide (k = "content-length") then (if decide (v = Some "0") then None else v)
    else if decide (k = "access-control-request-headers") then normalize_acrh <$> v
    else v
  else v.

Definition key_end (k : string) (v : option string) : option string :=
  if decide (k = "cookie") then Some (scrub_cookie v)
  else if decide (k = "cache-control") then Some "no-cache, no-store"
  else if decide (k = "pragma") then Some "no-cache"
  else v.

Definition canon_key (pre api : bool) (k : string) (v : option string) : option string :=
  key_end k (key_preflight pre k (key_ctype pre api k (key_accept k (key_base k v)))).

(** The two blocks of [mapCachedBodyToResponse], each on the chunk it
    receives: the tokens of an [okta_post_message] page, and the tokens of a
    token-endpoint response. *)
Section Blocks.
Context `{Deps}.






(** An endpoint configuration that [replaceUrls] can read: [url.parse]
    reads both urls, the upstream url has a protocol, and the texts spliced
    into the two patterns are made of ordinary characters and dots. *)
Definition plain_source (src : string) : Prop := is_Some (source_atoms src).

Definition well_formed (data : Data) : Prop :=
  url_parse_throws (proxied data) = None ∧
  url_parse_throws (cdn data) = None ∧
  ∃ proto, protocol (url_parse (proxied data)) = Some proto ∧
    plain_source (slice_0_m1 proto) ∧
    plain_source (tmpl_null (hostname (url_parse (proxied data)))) ∧
    plain_source (default "" (port (url_parse (proxied data)))) ∧
    plain_source (tmpl_null (host (url_parse (cdn data)))).


Definition filler (lo hi : nat) (f : string) : Prop :=
  lo ≤ String.length f ∧ String.length f ≤ hi ∧ str_forall dot f = true.

(** The flow-specific part of [mapRequestToCache], on the canonical headers. *)
Definition flows (req : Request) (record : bool) (hs : gmap string string)
    : Request * result SessionData :=
  if includes (url req) "authorize?" then
    match parseQuery (url req) with
    | Throw e => ({| method := method req; url := url req; headers := hs |}, Throw e)
    | Ok query =>
        let url' :=
          str_replace "profile%20email%20openid" "openid%20profile%20email"
            (str_replace ("nonce=" +:+ tmpl (query !! "nonce")) "nonce=NONCE"
               (str_replace ("state=" +:+ tmpl (query !! "state")) "state=STATE"
                  (url req))) in
        ({| method := method req; url := url'; headers := delete "cookie" hs |},
         Ok {| isAuthorizeReq := true;
               responseMode := query !! "response_mode";
               state := query !! "state";
               nonce := query !! "nonce";
               cookie := hs !! "cookie";
               isRedirectCallback := false;
               isTokenReq := false |})
    end
  else if decide (url req = "/api/v1/authn") then
    ({| method := method req; url := url req; headers := delete "cookie" hs |},
     Ok {| isAuthorizeReq := false; responseMode := None; state := None; nonce := None;
           cookie := hs !! "cookie";
           isRedirectCallback := false; isTokenReq := false |})
  else if includes (url req) "/sessions/me" && bool_decide (method req = "DELETE") then
    ({| method := method req; url := url req; headers := hs |},
     Ok {| isAuthorizeReq := false; responseMode := None; state := None; nonce := None;
           cookie := hs !! "cookie";
           isRedirectCallback := false; isTokenReq := false |})
  else if indexOf_is_0 (url req) "/oauth2/v1/authorize/redirect" then
    ({| method := method req; url := url req; headers := hs |},
     Ok {| isAuthorizeReq := false; responseMode := None; state := None; nonce := None;
           cookie := None;
           isRedirectCallback := true; isTokenReq := false |})
  else if indexOf_is_0 (url req) "/oauth2/default/v1/token" then
    ({| method := method req; url := url req; headers := hs |},
     Ok {| isAuthorizeReq := false; responseMode := None; state := None; nonce := None;
           cookie := None;
           isRedirectCallback := false; isTokenReq := true |})
  else if negb record && includes (url req) "/oauth2/default/v1/userinfo" then
    ({| method := method req; url := url req;
        headers := <["authorization" := "Bearer " +:+ keys_accessToken]> hs |},
     Ok no_session)
  else
    ({| method := method req; url := url req; headers := hs |}, Ok no_session).

(** What the [forEach] of [mapCachedHeadersToResponse] has built from the
    recorded map [hs]: a copy with the strings rewritten, or an exception of
    the rewriter. *)
Definition copied (data : Data) (hs : gmap string hval)
    (acc : gmap string hval * result unit) : Prop :=
  match acc.2 with
  | Ok _ =>
      ∀ k, match hs !! k with
           | None => acc.1 !! k = None
           | Some (HArr l) => acc.1 !! k = Some (HArr l)
           | Some (HStr s) => ∃ s', replaceUrls s data = Ok s' ∧ acc.1 !! k = Some (HStr s')
           end
  | Throw e => ∃ k s, hs !! k = Some (HStr s) ∧ replaceUrls s data = Throw e
  end.





End Blocks.

(** ** Concrete requests and responses, on the reference instance *)

Definition example_data (s : SessionData) : Data :=
  {| proxy := "http://localhost:7777";
     proxied := "https://upstream.example.com:1802";
     cdn := "https://cdn.example.com";
     session := s |}.


Definition redirect_session (s : string) : SessionData :=
  {| isAuthorizeReq := false; responseMode := None; state := Some (QStr s);
     nonce := None; cookie := None;
     isRedirectCallback := true; isTokenReq := false |}.

(** The JSON text of a token response with the two recorded tokens. *)
Definition token_response : string :=
  "{" +:+ json_field "access_token" +:+ Node.recorded_access_token +:+ String dquote ","
  +:+ json_field "id_token" +:+ Node.recorded_id_token +:+ String dquote "}".



Definition authorize_request : Request :=
  {| method := "GET";
     url := "/oauth2/v1/authorize?client_id=c1&response_mode=okta_post_message"
            +:+ "&scope=profile%20email%20openid&state=st-1&nonce=n-1";
     headers := list_to_map
       [("accept", "text/html, */*"); ("cookie", "ADRUM_123=xyz; session=abc");
        ("referer", "http://localhost:8080/"); ("host", "localhost:7777")] |}.

Definition preflight_request (acrh : string) : Request :=
  {| method := "OPTIONS";
     url := "/api/v1/sessions/me";
     headers := list_to_map
       [("access-control-request-method", "DELETE");
        ("access-control-request-headers", acrh);
        ("origin", "http://localhost:8080")] |}.

Definition plain_request (u : string) (hs : list (string * string)) : Request :=
  {| method := "GET"; url := u; headers := list_to_map hs |}.

Definition redirect_response : gmap string hval :=
  list_to_map
    [("location", HStr "https://upstream.example.com:1802/cb?code=c-1&state=STATE");
     ("etag", HStr "W/1"); ("set-cookie", HArr ["sid=1"; "t=2"])].


Definition cookie_request : Request :=
  plain_request "/api/v1/users/me" [("cookie", "ADADRUMx;RUMy; z")].

Definition userinfo_request : Request :=
  plain_request "/oauth2/default/v1/userinfo?state=authorize?" [].

Definition dollar_request : Request :=
  plain_request "/oauth2/v1/authorize?state=a$$b&nonce=n-1" [].

Definition escaped_request : Request :=
  plain_request "/oauth2/v1/authorize?state=a%2Fb&nonce=n-1" [].

Definition bare_preflight_request : Request :=
  {| method := "OPTIONS"; url := "/api/v1/sessions/me";
     headers := list_to_map [("access-control-request-method", "DELETE")] |}.

Definition one_object (hs : gmap string hval) : store := {[1%positive := hs]}.

(** ** Further notions used to state the properties *)


(** A JSON value that is not an object or an array. *)
Definition is_primitive (v : jsval) : bool :=
  match v with
  | JObj _ | JArr _ => false
  | _ => true
  end.

(** [text] is a reading of the pattern source [src]: as long as [src], with
    the character of [src] where that is an ordinary one and any character
    but a line terminator where it is a dot. *)
Fixpoint reads_as (src text : string) : bool :=
  match src, text with
  | "", "" => true
  | String c src', String x text' =>
      (if Ascii.eqb c "." then dot x else Ascii.eqb c x) && reads_as src' text'
  | _, _ => false
  end.

(** [s] with its letters a-z in upper case. *)
Fixpoint str_upper (s : string) : string :=
  match s with
  | "" => ""
  | String c s' => String (ascii_upper c) (str_upper s')
  end.

(** ** Logger helper functions *)

(** The escape character, and a line feed as a text. *)
Definition esc : ascii := "027"%char.
Definition line_feed : string := String "010"%char "".

(** [[0-9;]] *)
Definition ansi_param (c : ascii) : bool :=
  match is_digit c with Some _ => true | None => Ascii.eqb c ";" end.

(** [\u001b\[[0-9;]*m]: one colour sequence. *)
Definition re_ansi : re :=
  lits (String esc "[") (Seq (Rep ansi_param 0 None) (lit_chr "m")).

(** The text left after the colour sequences at the head of [s], for
    [(?:\u001b\[[0-9;]*m)*]; the fuel bounds their number. *)
Fixpoint ansi_run (fuel : nat) (s : string) : string :=
  match fuel with
  | 0 => s
  | S fuel' =>
      match re_here re_ansi s with
      | Some (s', _) => ansi_run fuel' s'
      | None => s
      end
  end.

(** One match of [/(?:(?:\u001b\[[0-9;]*m)*.?){1}/] at the head of [s]: the
    text matched and the text after it.  The pattern ends with an optional
    character and so matches wherever it is tried: the first, greedy, choice
    of each quantifier is the one kept, which is every colour sequence that
    follows and then one character, unless a line terminator or the end of
    the text comes next. *)
Definition mb_char (s : string) : string * string :=
  let s1 := ansi_run (String.length s) s in
  let s2 := match s1 with
            | String c s' => if dot c then s' else s1
            | "" => ""
            end in
  (str_take (String.length s - String.length s2) s, s2).

(** [str.match(...)] with that pattern and the [g] flag: the matches in
    order.  After an empty match the search moves on by one character; the
    empty match at the end of the text is the last one.  The fuel bounds the
    number of matches. *)
Fixpoint mb_chars (fuel : nat) (s : string) : list string :=
  match fuel with
  | 0 => []
  | S fuel' =>
      let '(m, rest) := mb_char s in
      match m, s with
      | "", "" => [m]
      | "", String _ s' => m :: mb_chars fuel' s'
      | _, _ => m :: mb_chars fuel' rest
      end
  end.

(** [i % width === 0] for an index [i]: never for the width 0, whose
    remainder is [NaN]. *)
Definition rem_is_0 (i : nat) (width : Z) : bool :=
  negb (width =? 0)%Z && (Z.rem (Z.of_nat i) width =? 0)%Z.

(** The body of the [forEach] of [wrap]: what the match [char] of index [i]
    adds to [wrapped]. *)
Definition wrap_push (width : Z) (i : nat) (char : string) : list string :=
  if negb (i =? 0) && rem_is_0 i width then [line_feed; char] else [char].

(** [wrap].  The width is an integer in every call of the code. *)
Definition wrap (str : string) (width : Z) : string :=
  let mbChars := mb_chars (S (String.length str)) str in
  join "" (concat (imap (wrap_push width) mbChars)).

(** The characters of [s] that satisfy [p]. *)
Fixpoint str_filter (p : ascii → bool) (s : string) : string :=
  match s with
  | "" => ""
  | String c s' => if p c then String c (str_filter p s') else str_filter p s'
  end.

(** A character of a text without colour sequences and line terminators. *)
Definition plain_char (c : ascii) : bool := dot c && negb (Ascii.eqb c esc).

(** The matches of a text without colour sequences and line terminators:
    its characters one by one, and the empty match at its end. *)
Fixpoint units (s : string) : list string :=
  match s with
  | "" => [""]
  | String c s' => String c "" :: units s'
  end.

(** What [wrap] makes of matches whose indices start at [i]. *)
Definition wrap_from (width : Z) (i : nat) (l : list string) : string :=
  join "" (concat (imap (λ j, wrap_push width (i + j)) l)).

(** A configuration whose upstream url has no scheme. *)
Definition schemeless_data : Data :=
  {| proxy := "http://localhost:7777";
     proxied := "upstream.example.com";
     cdn := "https://cdn.example.com";
     session := no_session |}.

Definition session_request : Request :=
  plain_request "/api/v1/sessions/me" [("cookie", "sid=abc"); ("x-request-id", "r-1")].

(** An authorize request whose url has a bracket as host. *)
Definition bracket_request : Request :=
  plain_request "http://[/oauth2/v1/authorize?state=st-1"
    [("cookie", "ADRUM_1=x; sid=abc"); ("authorization", "Bearer t")].

(** * Properties *)

(** ** The primitives on examples *)

Example str_replace_first : str_replace "ab" "X" "cabab" = "cXab".
Proof. reflexivity. Qed.

Example str_replace_dollar : str_replace "ab" "[$$|$&|$`|$'|$1]" "cabd" = "c[$|ab|c|d|$1]d".
Proof. reflexivity. Qed.

Example split_trim_ex : trim <$> split "," " a, b ,,c" = ["a"; "b"; ""; "c"].
Proof. reflexivity. Qed.

Example sort_ex : sort ["b"; "a"; "B"; ""] = [""; "B"; "a"; "b"].
Proof. vm_compute. reflexivity. Qed.

Example re_ex1 :
  re_replace_all (lits "ab" (Seq (Rep dot 1 (Some 2)) (lit_chr "c")))
    "<$&>" "abxxc-abc-abxc" = "<abxxc>-abc-<abxc>".
Proof. vm_compute. reflexivity. Qed.

(** ** Strings *)

Lemma app_cons c (s t : string) : String c s +:+ t = String c (s +:+ t).
Proof. reflexivity. Qed.

Lemma app_nil_l (t : string) : "" +:+ t = t.
Proof. reflexivity. Qed.

Lemma app_nil_r (s : string) : s +:+ "" = s.
Proof. induction s as [|c s IH]; [done|]. by rewrite app_cons, IH. Qed.

Lemma app_assoc (s t u : string) : (s +:+ t) +:+ u = s +:+ (t +:+ u).
Proof. induction s as [|c s IH]; [done|]. by rewrite !app_cons, IH. Qed.

Lemma length_app (s t : string) :
  String.length (s +:+ t) = String.length s + String.length t.
Proof. induction s as [|c s IH]; [done|]. rewrite app_cons. simpl. by rewrite IH. Qed.

Lemma str_drop_app (s t : string) : str_drop (String.length s) (s +:+ t) = t.
Proof. induction s as [|c s IH]; [done|]. by rewrite app_cons. Qed.

Lemma str_take_app (s t : string) : str_take (String.length s) (s +:+ t) = s.
Proof. induction s as [|c s IH]; [done|]. rewrite app_cons. simpl. by rewrite IH. Qed.

Lemma str_take_drop n (s : string) : str_take n s +:+ str_drop n s = s.
Proof.
  revert s. induction n as [|n IH]; intros [|c s]; try done.
  simpl. by rewrite app_cons, IH.
Qed.

Lemma prefix_app (p s : string) : String.prefix p (p +:+ s) = true.
Proof.
  induction p as [|c p IH]; [by destruct s|].
  rewrite app_cons. simpl. destruct (ascii_dec c c); [done|congruence].
Qed.

Lemma prefix_inv (p s : string) :
  String.prefix p s = true → s = p +:+ str_drop (String.length p) s.
Proof.
  revert s. induction p as [|c p IH]; intros s Hp; [done|].
  destruct s as [|d s]; [done|]. simpl in Hp.
  destruct (ascii_dec c d) as [->|]; [|done].
  rewrite app_cons. simpl. f_equal. by apply IH.
Qed.

Lemma str_mem_app c (s t : string) : str_mem c (s +:+ t) = str_mem c s || str_mem c t.
Proof.
  induction s as [|x s IH]; [done|]. rewrite app_cons. simpl.
  rewrite IH. by rewrite orb_assoc.
Qed.

(** ** Occurrences *)

Lemma str_find_cons pat c s :
  str_find pat (String c s) =
  if String.prefix pat (String c s) then Some ("", str_drop (String.length pat) (String c s))
  else match str_find pat s with
       | Some (b, a) => Some (String c b, a)
       | None => None
       end.
Proof. reflexivity. Qed.

Lemma str_find_nil pat :
  str_find pat "" = match pat with "" => Some ("", "") | _ => None end.
Proof. by destruct pat. Qed.

Lemma str_find_Some pat s b a :
  str_find pat s = Some (b, a) → s = b +:+ pat +:+ a.
Proof.
  revert b. induction s as [|c s IH]; intros b; [rewrite str_find_nil|rewrite str_find_cons].
  - destruct pat; [|done]. intros ?; simplify_eq. reflexivity.
  - destruct (String.prefix pat (String c s)) eqn:Hp.
    + intros ?; simplify_eq. by apply prefix_inv in Hp.
    + destruct (str_find pat s) as [[b' a']|]; [|done].
      intros ?; simplify_eq. rewrite app_cons. f_equal. by apply IH.
Qed.

Lemma str_find_None pat s : str_find pat s = None → ¬ occurs pat s.
Proof.
  induction s as [|c s IH]; [rewrite str_find_nil|rewrite str_find_cons].
  - destruct pat as [|x pat]; [done|]. intros _ (b & a & Hs). by destruct b.
  - destruct (String.prefix pat (String c s)) eqn:Hp; [done|].
    destruct (str_find pat s) as [[b' a']|] eqn:Hf; [done|]. intros _ (b & a & Hs).
    destruct b as [|x b].
    + rewrite app_nil_l in Hs. rewrite Hs, prefix_app in Hp. done.
    + rewrite app_cons in Hs. injection Hs as -> Hs. apply IH; [done|]. by exists b, a.
Qed.

Lemma includes_occurs s pat : includes s pat = true ↔ occurs pat s.
Proof.
  unfold includes, indexOf. destruct (str_find pat s) as [[b a]|] eqn:Hf.
  - split; [|done]. intros _. exists b, a. by apply str_find_Some.
  - split; [done|]. intros Ho. by apply str_find_None in Hf.
Qed.

(** Before the first occurrence there is no occurrence: the text found
    before it, extended by all but the last character of the pattern, does
    not hold the pattern. *)
Lemma str_find_first pat s b a :
  str_find pat s = Some (b, a) →
  ∀ b1 a1, s = b1 +:+ pat +:+ a1 → String.length b ≤ String.length b1.
Proof.
  revert b. induction s as [|c s IH]; intros b; [rewrite str_find_nil|rewrite str_find_cons].
  - destruct pat; [|done]. intros ? b1 a1 _; simplify_eq. simpl. lia.
  - destruct (String.prefix pat (String c s)) eqn:Hp.
    + intros ? b1 a1 _; simplify_eq. simpl. lia.
    + destruct (str_find pat s) as [[b' a']|] eqn:Hf; [|done].
      intros ? b1 a1 Hs; simplify_eq. destruct b1 as [|x b1].
      * rewrite app_nil_l in Hs. rewrite Hs, prefix_app in Hp. done.
      * rewrite app_cons in Hs. injection Hs as -> Hs. simpl.
        specialize (IH _ eq_refl _ _ Hs). lia.
Qed.

(** ** The [$] patterns of a replacement text *)

Lemma get_substitution_plain m b a caps rep :
  str_mem "$" rep = false → get_substitution m b a caps rep = rep.
Proof.
  induction rep as [|c rep IH]; [done|]. simpl.
  destruct (Ascii.eqb c "$") eqn:Hc; [done|]. simpl. intros Hm. by rewrite IH.
Qed.

(** Before its first [$] a replacement text stands for itself, and [$$]
    stands for one [$]. *)
Lemma get_substitution_app m b a caps p rest :
  str_mem "$" p = false →
  get_substitution m b a caps (p +:+ rest) = p +:+ get_substitution m b a caps rest.
Proof.
  induction p as [|c p IH]; [done|]. rewrite !app_cons. cbn [str_mem get_substitution].
  destruct (Ascii.eqb c "$") eqn:Hc; [done|]. simpl. intros Hm. by rewrite IH.
Qed.

Lemma get_substitution_dollars m b a caps p q :
  str_mem "$" p = false → str_mem "$" q = false →
  get_substitution m b a caps (p +:+ "$$" +:+ q) = p +:+ "$" +:+ q.
Proof.
  intros Hp Hq. rewrite get_substitution_app by done.
  change ("$$" +:+ q) with (String "$" (String "$" q)).
  cbn [get_substitution]. rewrite Ascii.eqb_refl.
  by rewrite get_substitution_plain.
Qed.

Lemma str_replace_plain pat rep s b a :
  str_mem "$" rep = false → str_find pat s = Some (b, a) →
  str_replace pat rep s = b +:+ rep +:+ a.
Proof. intros Hrep Hf. unfold str_replace. by rewrite Hf, get_substitution_plain. Qed.

Lemma str_replace_includes pat rep s :
  str_mem "$" rep = false → includes s pat = true →
  includes (str_replace pat rep s) rep = true.
Proof.
  intros Hrep Hinc. unfold includes, indexOf in Hinc.
  destruct (str_find pat s) as [[b a]|] eqn:Hf; [|done].
  rewrite (str_replace_plain _ _ _ _ _ Hrep Hf). apply includes_occurs. by exists b, a.
Qed.

Lemma str_replace_absent pat rep s :
  includes s pat = false → str_replace pat rep s = s.
Proof.
  unfold includes, indexOf, str_replace. by destruct (str_find pat s) as [[b a]|].
Qed.

(** ** Occurrences across a replacement *)

Lemma str_app_eq_app (a b c d : string) :
  a +:+ b = c +:+ d →
  ∃ l, (a = c +:+ l ∧ d = l +:+ b) ∨ (c = a +:+ l ∧ b = l +:+ d).
Proof.
  revert c. induction a as [|x a IH]; intros c Heq.
  - exists c. right. by rewrite !app_nil_l in *.
  - destruct c as [|y c].
    + exists (String x a). left. by rewrite !app_nil_l in *.
    + rewrite !app_cons in Heq. injection Heq as -> Heq.
      destruct (IH _ Heq) as [l [[-> ->]|[-> ->]]]; exists l; [left|right]; by rewrite app_cons.
Qed.

(** An occurrence of [X] in a text where [rep] stands between [b] and [a]
    lies in [b] or in [a], when [X] cannot overlap [rep]: the first character
    of each does not occur in the other. *)
Lemma occurs_around x X r rep b a :
  str_mem r (String x X) = false → str_mem x (String r rep) = false →
  occurs (String x X) (b +:+ String r rep +:+ a) →
  occurs (String x X) b ∨ occurs (String x X) a.
Proof.
  intros HrX Hxrep (u & v & Heq).
  destruct (str_app_eq_app _ _ _ _ Heq) as [l [[-> Hv]|[-> Hr]]].
  - destruct (str_app_eq_app _ _ _ _ Hv) as [l2 [[HX Hv2]|[-> ->]]].
    + destruct l2 as [|y l2].
      * left. exists u, "". rewrite app_nil_r in HX. by rewrite HX, app_nil_r.
      * rewrite !app_cons in Hv2. injection Hv2 as <- _.
        rewrite HX, str_mem_app in HrX. simpl in HrX. rewrite Ascii.eqb_refl in HrX.
        simpl in HrX. by rewrite orb_true_r in HrX.
    + left. by exists u, l2.
  - destruct (str_app_eq_app _ _ _ _ Hr) as [l2 [[Hrep Hv2]|[-> ->]]].
    + destruct l2 as [|y l2].
      * right. exists "", v. by rewrite !app_nil_l in *.
      * rewrite !app_cons in Hv2. injection Hv2 as <- _.
        rewrite Hrep, str_mem_app in Hxrep. simpl in Hxrep. rewrite Ascii.eqb_refl in Hxrep.
        simpl in Hxrep. by rewrite orb_true_r in Hxrep.
    + right. by exists l2, v.
Qed.

Lemma includes_before_replace x X r rep pat s :
  str_mem r (String x X) = false → str_mem x (String r rep) = false →
  str_mem "$" (String r rep) = false →
  includes (str_replace pat (String r rep) s) (String x X) = true →
  includes s (String x X) = true.
Proof.
  intros HrX Hxrep Hplain. unfold str_replace.
  destruct (str_find pat s) as [[b a]|] eqn:Hf; [|done].
  rewrite get_substitution_plain by done.
  rewrite !includes_occurs. intros Hocc.
  apply str_find_Some in Hf as ->.
  destruct (occurs_around _ _ _ _ _ _ HrX Hxrep Hocc) as [(u & v & ->)|(u & v & ->)].
  - exists u, (v +:+ pat +:+ a). by rewrite !app_assoc.
  - exists (b +:+ pat +:+ u), v. by rewrite !app_assoc.
Qed.

(** ** [trim], [split], [join] and [sort] *)

Lemma trim_start_no_lead s : no_lead_space (trim_start s).
Proof.
  induction s as [|c s IH]; [done|]. simpl.
  destruct (is_js_space c) eqn:Hc; [done|]. by simpl.
Qed.

Lemma trim_start_fix s : no_lead_space s → trim_start s = s.
Proof. destruct s as [|c s]; [done|]. simpl. by intros ->. Qed.

Lemma trim_end_no_lead s : no_lead_space s → no_lead_space (trim_end s).
Proof.
  destruct s as [|c s]; [done|]. simpl. intros Hc.
  destruct (trim_end s); [by rewrite Hc|done].
Qed.

Lemma trim_end_idem s : trim_end (trim_end s) = trim_end s.
Proof.
  induction s as [|c s IH]; [done|]. simpl.
  destruct (trim_end s) as [|d t] eqn:Ht.
  - destruct (is_js_space c) eqn:Hc; [done|]. simpl. by rewrite Hc.
  - change (trim_end (String c (String d t))) with
      (match trim_end (String d t) with
       | "" => if is_js_space c then "" else String c ""
       | t' => String c t'
       end).
    by rewrite IH.
Qed.

Lemma trim_idem s : trim (trim s) = trim s.
Proof.
  unfold trim.
  rewrite (trim_start_fix (trim_end (trim_start s))).
  - apply trim_end_idem.
  - apply trim_end_no_lead, trim_start_no_lead.
Qed.

Lemma trim_space s : trim (String " " s) = trim s.
Proof. reflexivity. Qed.

Lemma str_mem_trim_start c s : str_mem c (trim_start s) = true → str_mem c s = true.
Proof.
  induction s as [|x s IH]; [done|]. simpl.
  destruct (is_js_space x); [|done]. intros Hm. rewrite (IH Hm). apply orb_true_r.
Qed.

Lemma str_mem_trim_end c s : str_mem c (trim_end s) = true → str_mem c s = true.
Proof.
  induction s as [|x s IH]; [done|]. simpl.
  destruct (trim_end s) as [|d t].
  - destruct (is_js_space x); [done|]. simpl. rewrite orb_false_r. by intros ->.
  - simpl. intros [->|Hm]%orb_true_iff; [done|]. simpl in IH. rewrite (IH Hm). apply orb_true_r.
Qed.

Lemma str_mem_trim c s : str_mem c s = false → str_mem c (trim s) = false.
Proof.
  intros Hs. destruct (str_mem c (trim s)) eqn:Hm; [|done].
  apply str_mem_trim_end, str_mem_trim_start in Hm. congruence.
Qed.

Lemma split_nonempty sep s : split sep s ≠ [].
Proof.
  induction s as [|c s IH]; [done|]. simpl.
  destruct (Ascii.eqb c sep); [done|]. by destruct (split sep s).
Qed.

Lemma split_no_sep sep s x : x ∈ split sep s → str_mem sep x = false.
Proof.
  revert x. induction s as [|c s IH]; intros x.
  - simpl. by intros ->%list_elem_of_singleton.
  - simpl. destruct (Ascii.eqb c sep) eqn:Hc.
    + intros [->|Hx]%elem_of_cons; [done|]. by apply IH.
    + destruct (split sep s) as [|p rest] eqn:Hs.
      * by destruct (split_nonempty sep s).
      * intros [->|Hx]%elem_of_cons.
        -- simpl. rewrite Hc. simpl. apply IH. by left.
        -- apply IH. by right.
Qed.

Lemma split_plain sep s : str_mem sep s = false → split sep s = [s].
Proof.
  induction s as [|c s IH]; [done|]. simpl.
  destruct (Ascii.eqb c sep); [done|]. simpl. by intros ->%IH.
Qed.

Lemma split_app sep s t :
  str_mem sep s = false → split sep (s +:+ String sep t) = s :: split sep t.
Proof.
  induction s as [|c s IH].
  - intros _. rewrite app_nil_l. simpl. by rewrite Ascii.eqb_refl.
  - rewrite app_cons. cbn [split str_mem]. destruct (Ascii.eqb c sep) eqn:Hc; [done|].
    simpl. intros Hs. by rewrite IH.
Qed.

Lemma split_join (l : list string) x :
  (∀ e, e ∈ x :: l → str_mem "," e = false) →
  split "," (join ", " (x :: l)) = x :: (String " " <$> l).
Proof.
  revert x. induction l as [|y l IH]; intros x Hx.
  - simpl. apply split_plain, Hx. by left.
  - change (join ", " (x :: y :: l)) with (x +:+ ", " +:+ join ", " (y :: l)).
    change (x +:+ ", " +:+ join ", " (y :: l))
      with (x +:+ String "," (String " " (join ", " (y :: l)))).
    rewrite split_app by (apply Hx; by left).
    f_equal.
    change (split "," (String " " (join ", " (y :: l))))
      with (match split "," (join ", " (y :: l)) with
            | piece :: rest => String " " piece :: rest
            | [] => [String " " ""]
            end).
    rewrite IH; [done|]. intros e He. apply Hx. by right.
Qed.

Lemma sort_sorted l : Sorted String.le (sort l).
Proof. apply Sorted_merge_sort; apply _. Qed.

Lemma sort_perm l : sort l ≡ₚ l.
Proof. apply merge_sort_Permutation. Qed.

Lemma sort_fix l : Sorted String.le l → sort l = l.
Proof.
  intros Hl. apply (Sorted_unique String.le); [apply sort_sorted|done|apply sort_perm].
Qed.

Lemma acrh_entries_spec v e :
  e ∈ acrh_entries v →
  trim e = e ∧ str_mem "," e = false ∧ e ∉ ["accept"; "origin"].
Proof.
  unfold acrh_entries. rewrite sort_perm.
  intros [He (x & -> & Hx)%list_elem_of_fmap]%list_elem_of_filter.
  split_and!; [apply trim_idem| |done].
  apply str_mem_trim. by eapply split_no_sep.
Qed.

Lemma fmap_trim_space (l : list string) :
  (∀ e, e ∈ l → trim e = e) → trim <$> (String " " <$> l) = l.
Proof.
  induction l as [|x l IH]; [done|]. intros Hl. simpl.
  rewrite trim_space, Hl by (by left). f_equal. apply IH. intros e He. apply Hl. by right.
Qed.

Lemma filter_all {A} (P : A → Prop) `{∀ x, Decision (P x)} (l : list A) :
  (∀ e, e ∈ l → P e) → filter P l = l.
Proof.
  induction l as [|x l IH]; [done|]. intros Hl.
  rewrite filter_cons_True by (apply Hl; by left). f_equal. apply IH.
  intros e He. apply Hl. by right.
Qed.

(** Normalising a normalised [access-control-request-headers] value gives it
    back. *)
Lemma normalize_acrh_idem v : normalize_acrh (normalize_acrh v) = normalize_acrh v.
Proof.
  unfold normalize_acrh at 2 3.
  pose proof (acrh_entries_spec v) as Hspec.
  pose proof (sort_sorted (filter (λ header, header ∉ ["accept"; "origin"])
                             (trim <$> split "," v))) as Hsorted.
  fold (acrh_entries v) in Hsorted.
  destruct (acrh_entries v) as [|x l]; [by vm_compute|].
  unfold normalize_acrh, acrh_entries at 1.
  rewrite split_join by (intros e He; by apply Hspec).
  rewrite fmap_cons, fmap_trim_space.
  2:{ intros e He. apply Hspec. by right. }
  rewrite (proj1 (Hspec x ltac:(by left))).
  rewrite filter_all by (intros e He; by apply Hspec).
  by rewrite sort_fix.
Qed.

(** ** The canonical headers, header by header *)

Lemma canon_base_lookup hs k : canon_base hs !! k = key_base k (hs !! k).
Proof.
  unfold canon_base, key_base.
  rewrite !lookup_insert, !lookup_delete.
  repeat match goal with
    | |- (if decide (?s = ?j) then _ else _) = _ =>
        destruct (decide (s = j)) as [<-|?]; [reflexivity|]
    end.
  rewrite decide_False.
  2:{ intros Hin. repeat (apply elem_of_cons in Hin as [->|Hin]; [congruence|]).
      by apply elem_of_nil in Hin. }
  by rewrite !decide_False by congruence.
Qed.

Lemma canon_accept_hdr_lookup hs k :
  canon_accept_hdr hs !! k = key_accept k (hs !! k).
Proof.
  unfold canon_accept_hdr, key_accept, canon_accept. cbv zeta.
  case_decide as Hk.
  - subst k. destruct (truthy _); [|done].
    destruct (includes _ "text/html"); [by rewrite lookup_insert_eq|].
    destruct (includes _ "json"); by rewrite lookup_insert_eq.
  - destruct (truthy _); [|done].
    destruct (includes _ "text/html"); [by rewrite lookup_insert_ne|].
    destruct (includes _ "json"); by rewrite lookup_insert_ne.
Qed.

Lemma canon_ctype_lookup pre u hs k :
  canon_ctype pre u hs !! k = key_ctype pre (includes u "/api/v1") k (hs !! k).
Proof.
  unfold canon_ctype, key_ctype. destruct (negb pre && _).
  - rewrite lookup_insert. case_decide; subst; [by rewrite decide_True|by rewrite decide_False].
  - by case_decide.
Qed.

Lemma canon_preflight_lookup pre hs k :
  (canon_preflight pre hs).1 !! k = key_preflight pre k (hs !! k).
Proof.
  unfold canon_preflight, key_preflight. destruct pre; [|done]. cbv zeta.
  set (m := if decide (hs !! "content-length" = Some "0") then _ else _).
  assert (Hm : ∀ j, j ≠ "content-length" → m !! j = hs !! j).
  { intros j Hj. unfold m. destruct (decide _); [by rewrite lookup_delete_ne|done]. }
  assert (Hcl : m !! "content-length" =
                if decide (hs !! "content-length" = Some "0") then None
                else hs !! "content-length").
  { unfold m. destruct (decide _); [by rewrite lookup_delete_eq|done]. }
  destruct (decide (k = "content-length")) as [->|Hk].
  - rewrite <- Hcl. clearbody m.
    destruct (m !! "access-control-request-headers"); cbn [fst]; [|done].
    by rewrite lookup_insert_ne.
  - rewrite <- (Hm k Hk). clearbody m.
    destruct (decide (k = "access-control-request-headers")) as [->|Hk'].
    + destruct (m !! "access-control-request-headers") eqn:E; cbn [fst].
      * by rewrite lookup_insert_eq.
      * done.
    + destruct (m !! "access-control-request-headers"); cbn [fst]; [|done].
      by rewrite lookup_insert_ne.
Qed.

Lemma canon_preflight_ok pre hs :
  (canon_preflight pre hs).2 = Ok () ∨ (canon_preflight pre hs).2 = Throw TypeError.
Proof.
  unfold canon_preflight. destruct pre; [|by left]. cbv zeta.
  destruct (_ !! "access-control-request-headers"); [by left|by right].
Qed.

Lemma canon_preflight_throws pre hs :
  (canon_preflight pre hs).2 = Throw TypeError ↔
  pre = true ∧ hs !! "access-control-request-headers" = None.
Proof.
  unfold canon_preflight. destruct pre; [|split; [done|by intros [? _]]]. cbv zeta.
  set (m := if decide (hs !! "content-length" = Some "0") then _ else _).
  assert (Hm : m !! "access-control-request-headers" = hs !! "access-control-request-headers").
  { unfold m. destruct (decide _); [by rewrite lookup_delete_ne|done]. }
  rewrite Hm. destruct (hs !! "access-control-request-headers"); cbn [snd].
  - split; [done|by intros [_ ?]].
  - done.
Qed.

Lemma canon_end_lookup hs k : canon_end hs !! k = key_end k (hs !! k).
Proof.
  unfold canon_end, key_end. rewrite !lookup_insert.
  destruct (decide (k = "cookie")) as [->|?].
  - rewrite decide_False by done. rewrite decide_False by done. by rewrite decide_True.
  - destruct (decide (k = "cache-control")) as [->|?].
    + rewrite decide_False by done. by rewrite decide_True.
    + destruct (decide (k = "pragma")) as [->|?]; [by rewrite decide_True|].
      by rewrite !decide_False.
Qed.

Lemma canon_start_lookup pre u hs k :
  canon_start pre u hs !! k =
  key_ctype pre (includes u "/api/v1") k (key_accept k (key_base k (hs !! k))).
Proof.
  unfold canon_start.
  by rewrite canon_ctype_lookup, canon_accept_hdr_lookup, canon_base_lookup.
Qed.

Lemma canon_lookup pre u hs k :
  canon pre u hs !! k = canon_key pre (includes u "/api/v1") k (hs !! k).
Proof.
  unfold canon, canon_key.
  by rewrite canon_end_lookup, canon_preflight_lookup, canon_start_lookup.
Qed.

(** The steps at a header they do not concern. *)
Lemma key_base_other k v :
  k ∉ ["upgrade-insecure-requests"; "x-okta-user-agent-extended"; "if-none-match";
       "if-modified-since"; "expect"; "referer"; "user-agent"; "connection";
       "accept-language"; "accept-encoding"] →
  key_base k v = v.
Proof.
  intros Hk. unfold key_base. rewrite !not_elem_of_cons in Hk. destruct_and!.
  rewrite decide_False.
  2:{ intros Hin. repeat (apply elem_of_cons in Hin as [->|Hin]; [done|]).
      by apply elem_of_nil in Hin. }
  by rewrite !decide_False.
Qed.

Lemma key_accept_other k v : k ≠ "accept" → key_accept k v = v.
Proof. intros. unfold key_accept. by rewrite decide_False. Qed.

Lemma key_ctype_other pre api k v : k ≠ "content-type" → key_ctype pre api k v = v.
Proof. intros. unfold key_ctype. by rewrite decide_False. Qed.

Lemma key_preflight_other pre k v :
  k ≠ "content-length" → k ≠ "access-control-request-headers" → key_preflight pre k v = v.
Proof. intros. unfold key_preflight. destruct pre; [|done]. by rewrite !decide_False. Qed.

Lemma key_end_other k v :
  k ≠ "cookie" → k ≠ "cache-control" → k ≠ "pragma" → key_end k v = v.
Proof. intros. unfold key_end. by rewrite !decide_False. Qed.

Lemma canon_accept_idem v : canon_accept (canon_accept v) = canon_accept v.
Proof.
  unfold canon_accept. destruct (truthy v) eqn:Hv; [|by rewrite Hv].
  destruct (includes (default "" v) "text/html"); [by vm_compute|].
  destruct (includes (default "" v) "json"); by vm_compute.
Qed.

(** The canonical value of each header the code names. *)
Lemma canon_key_accept pre api v : canon_key pre api "accept" v = canon_accept v.
Proof. by destruct pre. Qed.

Lemma canon_key_ctype pre api v :
  canon_key pre api "content-type" v =
  if negb pre && api then Some "application/json" else v.
Proof. by destruct pre. Qed.

Lemma canon_key_clen pre api v :
  canon_key pre api "content-length" v =
  if pre then (if decide (v = Some "0") then None else v) else v.
Proof. by destruct pre. Qed.

Lemma canon_key_acrh pre api v :
  canon_key pre api "access-control-request-headers" v =
  if pre then normalize_acrh <$> v else v.
Proof. by destruct pre. Qed.

Lemma canon_key_cookie pre api v :
  canon_key pre api "cookie" v = Some (scrub_cookie v).
Proof. by destruct pre. Qed.

Lemma canon_key_other pre api k v :
  k ∉ ["upgrade-insecure-requests"; "x-okta-user-agent-extended"; "if-none-match";
       "if-modified-since"; "expect"; "referer"; "user-agent"; "connection";
       "accept-language"; "accept-encoding"; "accept"; "content-type"; "content-length";
       "access-control-request-headers"; "cookie"; "cache-control"; "pragma"] →
  canon_key pre api k v = v.
Proof.
  intros Hk. rewrite !not_elem_of_cons in Hk. destruct_and!. unfold canon_key.
  rewrite key_end_other, key_preflight_other, key_ctype_other, key_accept_other by done.
  apply key_base_other. rewrite !not_elem_of_cons. split_and!; done || apply not_elem_of_nil.
Qed.

(** Case analysis on a header name against the names the code uses. *)
Lemma key_cases (k : string) :
  k ∈ ["upgrade-insecure-requests"; "x-okta-user-agent-extended"; "if-none-match";
       "if-modified-since"; "expect"; "referer"; "user-agent"; "connection";
       "accept-language"; "accept-encoding"; "accept"; "content-type"; "content-length";
       "access-control-request-headers"; "cookie"; "cache-control"; "pragma"] ∨
  k ∉ ["upgrade-insecure-requests"; "x-okta-user-agent-extended"; "if-none-match";
       "if-modified-since"; "expect"; "referer"; "user-agent"; "connection";
       "accept-language"; "accept-encoding"; "accept"; "content-type"; "content-length";
       "access-control-request-headers"; "cookie"; "cache-control"; "pragma"].
Proof.
  destruct (decide (k ∈
    ["upgrade-insecure-requests"; "x-okta-user-agent-extended"; "if-none-match";
     "if-modified-since"; "expect"; "referer"; "user-agent"; "connection";
     "accept-language"; "accept-encoding"; "accept"; "content-type"; "content-length";
     "access-control-request-headers"; "cookie"; "cache-control"; "pragma"])); eauto.
Qed.

(** The canonical form of a canonical value: nothing changes, for every
    header but [cookie]. *)
Lemma canon_key_idem pre api api' k v :
  (api' = true → api = true) → k ≠ "cookie" →
  canon_key pre api' k (canon_key pre api k v) = canon_key pre api k v.
Proof.
  intros Hapi Hk. destruct (key_cases k) as [Hin|Hout].
  2:{ by rewrite !canon_key_other. }
  repeat (apply elem_of_cons in Hin as [->|Hin]); try (by apply elem_of_nil in Hin);
    try (by destruct pre); try done.
  - rewrite !canon_key_accept. apply canon_accept_idem.
  - rewrite !canon_key_ctype. destruct pre; [done|]. simpl.
    destruct api'; [by rewrite Hapi|done].
  - rewrite !canon_key_clen. destruct pre; [|done].
    destruct (decide (v = Some "0")); [done|]. by rewrite decide_False.
  - rewrite !canon_key_acrh. destruct pre; [|done].
    destruct v; [|done]. simpl. by rewrite normalize_acrh_idem.
Qed.

Lemma scrub_cookie_Some c : scrub_cookie (Some c) = re_replace_all re_adrum "" c.
Proof. unfold scrub_cookie. by destruct c. Qed.

Section Normalizer.
Context `{Deps}.

Lemma canon_end_eq (hs : gmap string string) :
  <["pragma" := "no-cache"]> (<["cache-control" := "no-cache, no-store"]>
    (<["cookie" := re_replace_all re_adrum ""
         (default "" (<["cookie" := if truthy (hs !! "cookie")
                                    then default "" (hs !! "cookie") else ""]> hs !! "cookie"))]>
       (<["cookie" := if truthy (hs !! "cookie") then default "" (hs !! "cookie") else ""]> hs)))
  = canon_end hs.
Proof.
  unfold canon_end, scrub_cookie. rewrite lookup_insert_eq. simpl.
  by rewrite insert_insert_eq.
Qed.

(** [mapRequestToCache] in two halves. *)
Lemma mapRequestToCache_unfold req record :
  mapRequestToCache req record =
  let pre := truthy (headers req !! "access-control-request-method") in
  match canon_preflight pre (canon_start pre (url req) (headers req)) with
  | (hs, Throw e) => ({| method := method req; url := url req; headers := hs |}, Throw e)
  | (hs, Ok _) => flows req record (canon_end hs)
  end.
Proof.
  unfold mapRequestToCache. cbv zeta.
  change (if negb (truthy (headers req !! "access-control-request-method"))
             && includes (url req) "/api/v1" then _ else _)
    with (canon_start (truthy (headers req !! "access-control-request-method"))
            (url req) (headers req)).
  set (hs0 := canon_start _ _ _).
  change (if truthy (headers req !! "access-control-request-method") then _ else (hs0, Ok ()))
    with (canon_preflight (truthy (headers req !! "access-control-request-method")) hs0).
  destruct (canon_preflight _ hs0) as [hs [[]|e]]; [|done].
  rewrite canon_end_eq. reflexivity.
Qed.

(** The request throws exactly when it is a preflight request without an
    [access-control-request-headers] header; otherwise it returns the data of
    its flow and leaves the canonical headers, changed by the flow. *)
Lemma mapRequestToCache_throws req record :
  truthy (headers req !! "access-control-request-method") = true →
  headers req !! "access-control-request-headers" = None →
  (mapRequestToCache req record).2 = Throw TypeError.
Proof.
  intros Hpre Hacrh. rewrite mapRequestToCache_unfold. cbv zeta. rewrite Hpre.
  destruct (canon_preflight_throws true (canon_start true (url req) (headers req))) as [_ Ht].
  destruct (canon_preflight true _) as [hs r]. simpl in Ht. rewrite Ht; [done|].
  split; [done|]. rewrite canon_start_lookup.
  rewrite key_ctype_other, key_accept_other by done. rewrite Hacrh.
  apply key_base_other. apply (bool_decide_unpack _). by vm_compute.
Qed.

Lemma mapRequestToCache_returns req record :
  (truthy (headers req !! "access-control-request-method") = true →
   is_Some (headers req !! "access-control-request-headers")) →
  mapRequestToCache req record =
  flows req record (canon (truthy (headers req !! "access-control-request-method"))
                      (url req) (headers req)).
Proof.
  intros Hpre. rewrite mapRequestToCache_unfold. cbv zeta. unfold canon.
  set (pre := truthy _) in *.
  pose proof (canon_preflight_throws pre (canon_start pre (url req) (headers req))) as Ht.
  pose proof (canon_preflight_ok pre (canon_start pre (url req) (headers req))) as Hok.
  destruct (canon_preflight pre _) as [hs r]. simpl in *.
  destruct Hok as [->| ->]; [done|]. exfalso.
  destruct Ht as [[Hp Hnone] _]; [done|]. destruct (Hpre Hp) as [v Hv].
  rewrite canon_start_lookup in Hnone.
  rewrite key_ctype_other, key_accept_other in Hnone by done. rewrite Hv in Hnone.
  rewrite key_base_other in Hnone; [done|]. apply (bool_decide_unpack _). by vm_compute.
Qed.

Lemma parseQuery_Ok u :
  url_parse_throws u = None → parseQuery u = Ok (querystring_parse (query (url_parse u))).
Proof. intros Hu. unfold parseQuery, parse_url. by rewrite Hu. Qed.

Lemma parseQuery_Throw u e : parseQuery u = Throw e ↔ url_parse_throws u = Some e.
Proof.
  unfold parseQuery, parse_url. destruct (url_parse_throws u) as [e'|]; simpl.
  - split; by intros [= ->].
  - done.
Qed.

Lemma parseQuery_is_Ok u : is_Ok (parseQuery u) ↔ url_parse_throws u = None.
Proof.
  unfold parseQuery, parse_url, is_Ok. destruct (url_parse_throws u) as [e'|]; simpl.
  - split; [by intros [? ?]|done].
  - split; [done|eauto].
Qed.

(** The flow-specific part throws only for an authorize url that
    [url.parse] rejects. *)
Lemma flows_returns req record hs :
  (includes (url req) "authorize?" = true → url_parse_throws (url req) = None) →
  ∃ d, (flows req record hs).2 = Ok d.
Proof.
  intros Hq. unfold flows. destruct (includes (url req) "authorize?").
  - rewrite parseQuery_Ok by auto. eauto.
  - repeat case_match; eauto.
Qed.

Lemma flows_throws req record hs e :
  (flows req record hs).2 = Throw e ↔
  includes (url req) "authorize?" = true ∧ url_parse_throws (url req) = Some e.
Proof.
  unfold flows. destruct (includes (url req) "authorize?").
  - rewrite <- parseQuery_Throw. destruct (parseQuery (url req)) as [q|e']; simpl.
    + split; [done|by intros [_ ?]].
    + split; [by intros [= ->]|by intros [_ [= ->]]].
  - split; [|by intros [? _]]. repeat case_match; done.
Qed.

Lemma flows_thrown req record hs e :
  (flows req record hs).2 = Throw e →
  (flows req record hs).1 = {| method := method req; url := url req; headers := hs |}.
Proof.
  unfold flows. destruct (includes (url req) "authorize?").
  - by destruct (parseQuery (url req)).
  - repeat case_match; done.
Qed.

Lemma flows_lookup req record hs k :
  k ≠ "cookie" → k ≠ "authorization" →
  headers (flows req record hs).1 !! k = hs !! k.
Proof.
  intros. unfold flows.
  repeat case_match; simpl; rewrite ?lookup_delete_ne, ?lookup_insert_ne by done; done.
Qed.

(** The url left by the flow-specific part is an api url only if the url of
    the request is one: the texts put into the url of an authorize request
    cannot overlap [/api/v1]. *)
Lemma flows_url_api req record hs :
  includes (url (flows req record hs).1) "/api/v1" = true →
  includes (url req) "/api/v1" = true.
Proof.
  unfold flows. destruct (includes (url req) "authorize?").
  - destruct (parseQuery (url req)) as [query|e]; [|done]. simpl. intros Hinc.
    apply includes_before_replace in Hinc; [|done..].
    apply includes_before_replace in Hinc; [|done..].
    by apply includes_before_replace in Hinc.
  - repeat case_match; done.
Qed.

(** Every header but [cookie], [authorization], [cache-control] and [pragma]
    has its canonical value when the call is left, thrown or not. *)
Lemma mapRequestToCache_lookup req record k :
  k ∉ ["cookie"; "authorization"; "cache-control"; "pragma"] →
  headers (mapRequestToCache req record).1 !! k =
  canon_key (truthy (headers req !! "access-control-request-method"))
    (includes (url req) "/api/v1") k (headers req !! k).
Proof.
  intros Hk. rewrite !not_elem_of_cons in Hk. destruct_and!.
  rewrite mapRequestToCache_unfold. cbv zeta. set (pre := truthy _).
  pose proof (canon_preflight_lookup pre (canon_start pre (url req) (headers req)) k) as Hl.
  unfold canon_key. rewrite key_end_other by done. rewrite <- canon_start_lookup, <- Hl.
  destruct (canon_preflight pre _) as [hs [[]|e]]; simpl.
  - rewrite flows_lookup by done. rewrite canon_end_lookup. by rewrite key_end_other.
  - done.
Qed.

End Normalizer.

Section NormalizerProperties.
Context `{Deps}.

Lemma mapRequestToCache_accept req record :
  headers (mapRequestToCache req record).1 !! "accept" = canon_accept (headers req !! "accept").
Proof.
  rewrite mapRequestToCache_lookup by (apply (bool_decide_unpack _); by vm_compute).
  apply canon_key_accept.
Qed.

Lemma canon_accept_fallback v :
  canon_accept v = Some "*/*" →
  ∃ a, v = Some a ∧ a ≠ "" ∧ includes a "text/html" = false ∧ includes a "json" = false.
Proof.
  unfold canon_accept. destruct v as [a|]; [|done]. destruct a as [|c a]; [done|].
  simpl. destruct (includes (String c a) "text/html") eqn:Hh; [done|].
  destruct (includes (String c a) "json") eqn:Hj; [done|]. intros _. by exists (String c a).
Qed.

(** C10.  A request without an [accept] header leaves normalisation without
    one; the [*/*] fallback is only ever the image of an [accept] header that
    is present, not empty, and names neither [text/html] nor [json]; so a
    request with an [accept] header and a request without one never
    normalise to the same header map. *)
Theorem accept_absent_stays_absent (req : Request) (record : bool) :
  headers req !! "accept" = None →
  headers (mapRequestToCache req record).1 !! "accept" = None ∧
  ∀ (req' : Request) (record' : bool),
    (headers (mapRequestToCache req' record').1 !! "accept" = Some "*/*" →
       ∃ a, headers req' !! "accept" = Some a ∧ a ≠ "" ∧
            includes a "text/html" = false ∧ includes a "json" = false) ∧
    (is_Some (headers req' !! "accept") →
       headers (mapRequestToCache req' record').1 ≠ headers (mapRequestToCache req record).1).
Proof.
  intros Hnone.
  assert (Hout : headers (mapRequestToCache req record).1 !! "accept" = None).
  { by rewrite mapRequestToCache_accept, Hnone. }
  split; [done|]. intros req' record'. split.
  - rewrite mapRequestToCache_accept. apply canon_accept_fallback.
  - intros [a Ha] Heq.
    assert (Hsome : is_Some (headers (mapRequestToCache req' record').1 !! "accept")).
    { rewrite mapRequestToCache_accept, Ha. unfold canon_accept.
      destruct (truthy (Some a)); eauto. }
    rewrite Heq, Hout in Hsome. by destruct Hsome.
Qed.

Lemma mapRequestToCache_acrh req record v :
  truthy (headers req !! "access-control-request-method") = true →
  headers req !! "access-control-request-headers" = Some v →
  headers (mapRequestToCache req record).1 !! "access-control-request-headers"
  = Some (normalize_acrh v).
Proof.
  intros Hpre Hv.
  rewrite mapRequestToCache_lookup by (apply (bool_decide_unpack _); by vm_compute).
  by rewrite canon_key_acrh, Hpre, Hv.
Qed.

(** C3, as the code has it.  For a preflight request that carries an
    [access-control-request-headers] value, normalisation leaves as that
    header the entries of the value (split on commas and trimmed) other than
    [accept] and [origin], sorted and joined by a comma and a space.  Nothing
    folds case: the value [origin, x-foo, accept] becomes [x-foo].  The call
    returns unless the url holds [authorize?] and [url.parse] rejects it.  A
    preflight request without the header makes the call throw a
    [TypeError]. *)
Theorem preflight_request_headers_normalized (req : Request) (record : bool) :
  truthy (headers req !! "access-control-request-method") = true →
  (∀ v, headers req !! "access-control-request-headers" = Some v →
     headers (mapRequestToCache req record).1 !! "access-control-request-headers"
       = Some (join ", " (acrh_entries v)) ∧
     acrh_entries v ≡ₚ filter (λ header, header ∉ ["accept"; "origin"]) (trim <$> split "," v) ∧
     Sorted String.le (acrh_entries v) ∧
     (v = "origin, x-foo, accept" →
      headers (mapRequestToCache req record).1 !! "access-control-request-headers"
        = Some "x-foo") ∧
     (is_Ok (mapRequestToCache req record).2 ↔
      (includes (url req) "authorize?" = true → url_parse_throws (url req) = None))) ∧
  (headers req !! "access-control-request-headers" = None →
   (mapRequestToCache req record).2 = Throw TypeError).
Proof.
  intros Hpre. split.
  - intros v Hv. split_and!.
    + by rewrite (mapRequestToCache_acrh _ _ v).
    + apply sort_perm.
    + apply sort_sorted.
    + intros ->. by rewrite (mapRequestToCache_acrh _ _ "origin, x-foo, accept").
    + rewrite mapRequestToCache_returns by (intros _; by rewrite Hv). split.
      * intros [d Hd] Hauth. destruct (url_parse_throws (url req)) as [e|] eqn:He; [|done].
        assert (Ht : (flows req record
                        (canon (truthy (headers req !! "access-control-request-method"))
                           (url req) (headers req))).2 = Throw e) by by apply flows_throws.
        by rewrite Hd in Ht.
      * intros Hq. by apply flows_returns.
  - intros Hnone. by apply mapRequestToCache_throws.
Qed.

Lemma canon_again pre api u' (h0 h1 : gmap string string) :
  (includes u' "/api/v1" = true → api = true) →
  (∀ k, k ≠ "cookie" → k ≠ "authorization" → h1 !! k = canon_key pre api k (h0 !! k)) →
  canon pre u' h1 = <["cookie" := scrub_cookie (h1 !! "cookie")]> h1.
Proof.
  intros Hapi Hh1. apply map_eq. intros k. rewrite canon_lookup.
  destruct (decide (k = "cookie")) as [->|Hc].
  { by rewrite canon_key_cookie, lookup_insert_eq. }
  rewrite lookup_insert_ne by done.
  destruct (decide (k = "authorization")) as [->|Ha].
  { apply canon_key_other. apply (bool_decide_unpack _). by vm_compute. }
  rewrite Hh1 by done. by apply canon_key_idem.
Qed.

(** C8, as the code has it.  When normalisation returns, normalising the
    request it leaves returns too and gives the same header map again,
    provided the cookie left by the first pass holds no further [ADRUM]
    fragment and, for an authorize request, the rewritten url is still an
    authorize url and one that [url.parse] reads. *)
Theorem normalize_twice_same_headers (req req1 : Request) (record : bool) (d1 : SessionData) :
  mapRequestToCache req record = (req1, Ok d1) →
  scrub_cookie (Some (scrub_cookie (headers req !! "cookie")))
    = scrub_cookie (headers req !! "cookie") →
  (includes (url req) "authorize?" = true →
   includes (url req1) "authorize?" = true ∧ url_parse_throws (url req1) = None) →
  ∃ req2 d2, mapRequestToCache req1 record = (req2, Ok d2) ∧ headers req2 = headers req1.
Proof.
  intros Hrun Hcookie Hauth.
  set (pre := truthy (headers req !! "access-control-request-method")).
  set (C0 := canon pre (url req) (headers req)).
  (* the first pass did not throw *)
  assert (Hacrh : pre = true → is_Some (headers req !! "access-control-request-headers")).
  { intros Hpre. destruct (headers req !! "access-control-request-headers") eqn:E; [eauto|].
    pose proof (mapRequestToCache_throws req record Hpre E) as Ht.
    by rewrite Hrun in Ht. }
  rewrite (mapRequestToCache_returns req record Hacrh) in Hrun. fold pre C0 in Hrun.
  (* what the first pass leaves *)
  assert (Hh1 : ∀ k, k ≠ "cookie" → k ≠ "authorization" →
            headers req1 !! k = canon_key pre (includes (url req) "/api/v1") k (headers req !! k)).
  { intros k Hk1 Hk2. replace req1 with (flows req record C0).1 by by rewrite Hrun.
    rewrite flows_lookup by done. apply canon_lookup. }
  assert (Hapi : includes (url req1) "/api/v1" = true → includes (url req) "/api/v1" = true).
  { replace req1 with (flows req record C0).1 by by rewrite Hrun. apply flows_url_api. }
  assert (Hpre1 : truthy (headers req1 !! "access-control-request-method") = pre).
  { rewrite Hh1 by done. rewrite canon_key_other; [done|].
    apply (bool_decide_unpack _). by vm_compute. }
  assert (Hok1 : truthy (headers req1 !! "access-control-request-method") = true →
                 is_Some (headers req1 !! "access-control-request-headers")).
  { rewrite Hpre1. intros Hpre. rewrite Hh1 by done. rewrite canon_key_acrh, Hpre.
    destruct (Hacrh Hpre) as [v ->]. by eexists. }
  rewrite (mapRequestToCache_returns req1 record Hok1), Hpre1.
  rewrite (canon_again pre (includes (url req) "/api/v1") (url req1) (headers req) (headers req1))
    by done.
  assert (HC0 : C0 !! "cookie" = Some (scrub_cookie (headers req !! "cookie"))).
  { unfold C0. by rewrite canon_lookup, canon_key_cookie. }
  assert (Hkeep : <["cookie" := scrub_cookie (C0 !! "cookie")]> C0 = C0).
  { apply insert_id. by rewrite HC0, Hcookie. }
  clear Hh1 Hpre1 Hok1 Hacrh.
  unfold flows in Hrun.
  destruct (includes (url req) "authorize?") eqn:E1.
  { destruct (Hauth eq_refl) as [Hauth1 Hparse1].
    destruct (parseQuery (url req)) as [query|e]; [|done].
    injection Hrun as <- _. simpl in *. unfold flows. simpl. rewrite Hauth1.
    rewrite parseQuery_Ok by done.
    do 2 eexists. split; [done|]. simpl.
    by rewrite lookup_delete_eq, delete_insert_eq, delete_delete_eq. }
  destruct (decide (url req = "/api/v1/authn")) as [E2|E2].
  { injection Hrun as <- _. simpl in *. unfold flows. simpl. rewrite E1.
    rewrite decide_True by done.
    do 2 eexists. split; [done|]. simpl.
    by rewrite lookup_delete_eq, delete_insert_eq, delete_delete_eq. }
  destruct (includes (url req) "/sessions/me" && bool_decide (method req = "DELETE")) eqn:E3.
  { injection Hrun as <- _. simpl in *. unfold flows. simpl. rewrite E1.
    rewrite decide_False by done. rewrite E3.
    do 2 eexists. split; [done|]. simpl. done. }
  destruct (indexOf_is_0 (url req) "/oauth2/v1/authorize/redirect") eqn:E4.
  { injection Hrun as <- _. simpl in *. unfold flows. simpl. rewrite E1.
    rewrite decide_False by done. rewrite E3, E4.
    do 2 eexists. split; [done|]. simpl. done. }
  destruct (indexOf_is_0 (url req) "/oauth2/default/v1/token") eqn:E5.
  { injection Hrun as <- _. simpl in *. unfold flows. simpl. rewrite E1.
    rewrite decide_False by done. rewrite E3, E4, E5.
    do 2 eexists. split; [done|]. simpl. done. }
  destruct (negb record && includes (url req) "/oauth2/default/v1/userinfo") eqn:E6.
  { injection Hrun as <- _. simpl in *. unfold flows. simpl. rewrite E1.
    rewrite decide_False by done. rewrite E3, E4, E5, E6.
    do 2 eexists. split; [done|]. simpl.
    rewrite lookup_insert_ne by done.
    rewrite (insert_insert_ne C0 "cookie" "authorization") by done.
    by rewrite Hkeep, insert_insert_eq. }
  injection Hrun as <- _. simpl in *. unfold flows. simpl. rewrite E1.
  rewrite decide_False by done. rewrite E3, E4, E5, E6.
  do 2 eexists. split; [done|]. simpl. done.
Qed.

End NormalizerProperties.

(** ** The matcher against the declarative reading of a pattern *)

Lemma rep_match_sound {R} p lo hi s (k : string → option R) x :
  rep_match p lo hi s k = Some x →
  ∃ w s', s = w +:+ s' ∧ str_forall p w = true ∧ lo ≤ String.length w ∧
          (∀ h, hi = Some h → String.length w ≤ h) ∧ k s' = Some x.
Proof.
  revert lo hi. induction s as [|c s IH]; intros lo hi Hm.
  - simpl in Hm. destruct lo; [|done]. exists "", "". split_and!; try done.
    intros h _. simpl. lia.
  - assert (Hstop : match lo with 0 => k (String c s) | S _ => None end = Some x →
              ∃ w s', String c s = w +:+ s' ∧ str_forall p w = true ∧ lo ≤ String.length w ∧
                      (∀ h, hi = Some h → String.length w ≤ h) ∧ k s' = Some x).
    { destruct lo; [|done]. intros Hk. exists "", (String c s). split_and!; try done.
      intros h _. simpl. lia. }
    simpl in Hm. destruct (p c && negb (bool_decide (hi = Some 0))) eqn:Hc; [|by apply Hstop].
    destruct (rep_match p (pred lo) (pred <$> hi) s k) as [y|] eqn:Hrec; [|by apply Hstop].
    injection Hm as ->. apply andb_prop in Hc as [Hpc Hhi].
    apply negb_true_iff, bool_decide_eq_false in Hhi.
    destruct (IH _ _ Hrec) as (w & s' & -> & Hw & Hlo & Hh & Hk).
    exists (String c w), s'. split_and!; try done.
    + simpl. by rewrite Hpc.
    + simpl. lia.
    + intros h ->. simpl. specialize (Hh (pred h) eq_refl).
      destruct h; [done|]. simpl in Hh. lia.
Qed.

Lemma rep_match_complete {R} p lo hi w v (k : string → option R) :
  str_forall p w = true → lo ≤ String.length w →
  (∀ h, hi = Some h → String.length w ≤ h) →
  is_Some (k v) → is_Some (rep_match p lo hi (w +:+ v) k).
Proof.
  revert lo hi. induction w as [|c w IH]; intros lo hi Hw Hlo Hhi Hk.
  - rewrite app_nil_l. simpl in Hlo. assert (lo = 0) as -> by lia.
    destruct v as [|c v]; [done|]. simpl.
    destruct (p c && _); [|done]. by destruct (rep_match _ _ _ _ _).
  - rewrite app_cons. simpl in *. apply andb_prop in Hw as [Hpc Hw]. rewrite Hpc. simpl.
    rewrite bool_decide_eq_false_2; simpl.
    2:{ intros ->. specialize (Hhi 0 eq_refl). lia. }
    destruct (IH (pred lo) (pred <$> hi) Hw) as [y ->]; [lia| |done|done].
    intros h Hh. destruct hi as [h'|]; [|done]. injection Hh as <-.
    specialize (Hhi h' eq_refl). lia.
Qed.

Lemma re_run_sound {R} r s cap (k : string → option string → option R) x :
  re_run r s cap k = Some x →
  ∃ w s' cap', s = w +:+ s' ∧ Matches r w s' ∧ k s' cap' = Some x.
Proof.
  revert s cap k. induction r as [p| |a IHa b IHb|a IHa b IHb|a IHa|p lo hi|a IHa];
    intros s cap k Hrun; simpl in Hrun.
  - destruct s as [|c s]; [done|]. destruct (p c) eqn:Hpc; [|done].
    exists (String c ""), s, cap. split_and!; [done| |done]. by constructor.
  - destruct s; [|done]. exists "", "", cap. split_and!; [done| |done]. constructor.
  - destruct (IHa _ _ _ Hrun) as (w1 & s1 & cap1 & -> & Ha & Hb).
    destruct (IHb _ _ _ Hb) as (w2 & s2 & cap2 & -> & Hb' & Hk).
    exists (w1 +:+ w2), s2, cap2. split_and!; [by rewrite app_assoc| |done].
    by constructor.
  - destruct (re_run a s cap k) as [y|] eqn:Ha.
    + injection Hrun as ->. destruct (IHa _ _ _ Ha) as (w & s' & cap' & -> & Hm & Hk).
      exists w, s', cap'. split_and!; [done| |done]. by apply M_Alt_l.
    + destruct (IHb _ _ _ Hrun) as (w & s' & cap' & -> & Hm & Hk).
      exists w, s', cap'. split_and!; [done| |done]. by apply M_Alt_r.
  - destruct (re_run a s cap k) as [y|] eqn:Ha.
    + injection Hrun as ->. destruct (IHa _ _ _ Ha) as (w & s' & cap' & -> & Hm & Hk).
      exists w, s', cap'. split_and!; [done| |done]. by apply M_Opt_some.
    + exists "", s, cap. split_and!; [done| |done]. apply M_Opt_none.
  - destruct (rep_match_sound _ _ _ _ _ _ Hrun) as (w & s' & -> & Hw & Hlo & Hhi & Hk).
    exists w, s', cap. split_and!; [done| |done]. by constructor.
  - destruct (IHa _ _ _ Hrun) as (w & s' & cap' & -> & Hm & Hk).
    eexists w, s', _. split_and!; [done| |exact Hk]. by constructor.
Qed.

Lemma re_run_complete {R} r w v cap (k : string → option string → option R) :
  Matches r w v → (∀ cap', is_Some (k v cap')) → is_Some (re_run r (w +:+ v) cap k).
Proof.
  intros Hm. revert cap k.
  induction Hm as [p c v Hpc| |a b w1 w2 v _ IHa _ IHb|a b w v _ IH|a b w v _ IH
                  |a w v _ IH|a v|p lo hi w v Hw Hlo Hhi|a w v _ IH]; intros cap k Hk; simpl.
  - by rewrite Hpc.
  - done.
  - rewrite app_assoc. apply IHa. intros cap'. by apply IHb.
  - by destruct (IH cap k Hk) as [y ->].
  - destruct (re_run a (w +:+ v) cap k); [done|]. by apply IH.
  - by destruct (IH cap k Hk) as [y ->].
  - rewrite app_nil_l. by destruct (re_run a v cap k).
  - by apply rep_match_complete.
  - apply IH. intros cap'. apply Hk.
Qed.

Lemma length_diff (w s' : string) :
  String.length (w +:+ s') - String.length s' = String.length w.
Proof. rewrite length_app. lia. Qed.

Lemma re_here_Some r s s' cap :
  re_here r s = Some (s', cap) → ∃ w, s = w +:+ s' ∧ Matches r w s'.
Proof.
  unfold re_here. intros Hrun.
  destruct (re_run_sound _ _ _ _ _ Hrun) as (w & s1 & cap1 & -> & Hm & Hk).
  injection Hk as <- _. by exists w.
Qed.

Lemma re_here_None r s w v : re_here r s = None → s = w +:+ v → ¬ Matches r w v.
Proof.
  unfold re_here. intros Hnone -> Hm.
  destruct (re_run_complete r w v None (λ s' cap, Some (s', cap)) Hm) as [y Hy]; [by eauto|].
  congruence.
Qed.

Lemma match_at_cons r c s i : match_at r (String c s) (S i) → match_at r s i.
Proof.
  intros (u & w & v & Heq & Hlen & Hm). destruct u as [|x u]; [done|].
  rewrite app_cons in Heq. injection Heq as -> ->. simpl in Hlen.
  exists u, w, v. split_and!; [done|lia|done].
Qed.

Lemma match_at_0 r s : match_at r s 0 → ∃ w v, s = w +:+ v ∧ Matches r w v.
Proof.
  intros (u & w & v & -> & Hlen & Hm). destruct u; [|done]. by exists w, v.
Qed.

Lemma take_matched (s w s' : string) :
  s = w +:+ s' → str_take (String.length s - String.length s') s = w.
Proof. intros ->. by rewrite length_diff, str_take_app. Qed.

Lemma re_exec_unfold r s :
  re_exec r s =
  match re_here r s with
  | Some (s', cap) =>
      Some (ReResult "" (str_take (String.length s - String.length s') s) cap s')
  | None =>
      match s with
      | "" => None
      | String c s1 =>
          match re_exec r s1 with
          | Some m => Some (ReResult (String c (m_before m)) (m_matched m) (m_cap m) (m_after m))
          | None => None
          end
      end
  end.
Proof. by destruct s. Qed.

(** [re_exec] finds the leftmost match. *)
Lemma re_exec_Some r s m :
  re_exec r s = Some m →
  s = m_before m +:+ m_matched m +:+ m_after m ∧
  Matches r (m_matched m) (m_after m) ∧
  ∀ i, i < String.length (m_before m) → ¬ match_at r s i.
Proof.
  revert m. induction s as [|c s IH]; intros m; rewrite re_exec_unfold.
  - destruct (re_here r "") as [[s' cap]|] eqn:Hh; [|done]. intros [= <-]. cbn [m_before m_matched m_after].
    destruct (re_here_Some _ _ _ _ Hh) as (w & Hs & Hm).
    destruct w; [|done]. rewrite app_nil_l in Hs. subst s'.
    split_and!; [done|done|]. intros i Hi. simpl in Hi. lia.
  - destruct (re_here r (String c s)) as [[s' cap]|] eqn:Hh.
    + intros Heq. apply (inj Some) in Heq. subst m. cbn [m_before m_matched m_after].
      destruct (re_here_Some _ _ _ _ Hh) as (w & Hs & Hm).
      rewrite (take_matched _ _ _ Hs).
      split_and!; [done|done|]. intros i Hi. simpl in Hi. lia.
    + destruct (re_exec r s) as [m'|] eqn:He; [|done]. intros [= <-].
      cbn [m_before m_matched m_after].
      destruct (IH _ eq_refl) as (Hs & Hm & Hleft).
      split_and!; [by rewrite app_cons, <- Hs|done|].
      intros [|i] Hi Hat.
      * destruct (match_at_0 _ _ Hat) as (w & v & Heq & Hmw). by eapply re_here_None.
      * apply (Hleft i); [simpl in Hi; lia|]. by eapply match_at_cons.
Qed.





(** ** The patterns of [replaceUrls] *)

Lemma source_atoms_cons c src l :
  source_atoms (String c src) = Some l →
  ∃ p l', l = p :: l' ∧ p c = true ∧ source_atoms src = Some l'.
Proof.
  simpl. destruct (source_atoms src) as [l'|]; [|done].
  destruct (Ascii.eqb c ".") eqn:Hdot.
  - intros [= <-]. exists dot, l'. split_and!; [done| |done].
    apply Ascii.eqb_eq in Hdot as ->. done.
  - destruct (is_syntax_char c); [done|]. intros [= <-].
    exists (Ascii.eqb c), l'. split_and!; [done| |done]. apply Ascii.eqb_refl.
Qed.

(** A source of the fragment matches its own text. *)
Lemma chrs_matches src l tail w v :
  source_atoms src = Some l → Matches tail w v → Matches (chrs l tail) (src +:+ w) v.
Proof.
  revert l. induction src as [|c src IH]; intros l Hl Hm.
  - injection Hl as <-. by rewrite app_nil_l.
  - destruct (source_atoms_cons _ _ _ Hl) as (p & l' & -> & Hpc & Hl').
    change (chrs (p :: l') tail) with (Seq (Chr p) (chrs l' tail)).
    change (String c src +:+ w) with (String c "" +:+ (src +:+ w)).
    apply M_Seq; [by constructor|by apply IH].
Qed.



Lemma lits_min_len s tail : re_min_len (lits s tail) = String.length s + re_min_len tail.
Proof.
  induction s as [|c s IH]; [done|].
  change (lits (String c s) tail) with (Seq (lit_chr c) (lits s tail)).
  cbn [re_min_len String.length]. rewrite IH. unfold lit_chr. simpl. lia.
Qed.

Lemma re_eps_matches v : Matches re_eps "" v.
Proof. apply M_Rep; [done|simpl; lia|]. intros h [= <-]. simpl. lia. Qed.

Lemma filler_matches lo hi f v : filler lo hi f → Matches (Rep dot lo (Some hi)) f v.
Proof. intros (Hlo & Hhi & Hf). apply M_Rep; [done|done|]. by intros h [= <-]. Qed.

Section ReplaceUrls.
Context `{Deps}.





Lemma well_formed_patterns data :
  well_formed data →
  ∃ proto up cd, protocol (url_parse (proxied data)) = Some proto ∧
    upstream_pattern proto (url_parse (proxied data)) = Ok up ∧
    cdn_pattern (url_parse (cdn data)) = Ok cd.
Proof.
  intros (_ & _ & proto & Hproto & [ps Hps] & [hs Hhs] & [qs Hqs] & [cs Hcs]).
  eexists proto, _, _. split_and!; [done| |].
  - unfold upstream_pattern. by rewrite Hps, Hhs, Hqs.
  - unfold cdn_pattern. by rewrite Hcs.
Qed.

Lemma well_formed_parses data :
  well_formed data →
  url_parse_throws (proxied data) = None ∧ url_parse_throws (cdn data) = None.
Proof. by intros (? & ? & _). Qed.

Lemma replaceUrls_unfold str data proto up cd :
  url_parse_throws (proxied data) = None →
  url_parse_throws (cdn data) = None →
  protocol (url_parse (proxied data)) = Some proto →
  upstream_pattern proto (url_parse (proxied data)) = Ok up →
  cdn_pattern (url_parse (cdn data)) = Ok cd →
  replaceUrls str data
  = Ok (re_replace_all cd (proxy data) (re_replace_all up (proxy data) str)).
Proof.
  intros Hp1 Hp2 Hp Hu Hc. unfold replaceUrls, parse_url. rewrite Hp1. simpl.
  rewrite Hp. simpl. rewrite Hp2. simpl. rewrite Hu. simpl. by rewrite Hc.
Qed.

(** Whether [replaceUrls] throws depends on the configuration alone. *)
Lemma replaceUrls_ok_any str str' data :
  is_Ok (replaceUrls str data) → is_Ok (replaceUrls str' data).
Proof.
  unfold replaceUrls, parse_url, is_Ok.
  destruct (url_parse_throws (proxied data)); simpl; [by intros [? ?]|].
  destruct (protocol _); simpl; [|by intros [? ?]].
  destruct (url_parse_throws (cdn data)); simpl; [by intros [? ?]|].
  destruct (upstream_pattern _ _); simpl; [|by intros [? ?]].
  destruct (cdn_pattern _); simpl; [|by intros [? ?]]. eauto.
Qed.


End ReplaceUrls.

Section Headers.
Context `{Deps}.

Lemma copy_headers_spec data hs :
  copied data hs (map_fold (copy_header data) (∅, Ok ()) hs).
Proof.
  apply (map_fold_weak_ind (λ acc m, copied data m acc)).
  - intros k. by rewrite !lookup_empty.
  - intros i x m [mapped r] Hi IH. unfold copied, copy_header in *. simpl in *.
    destruct r as [[]|e]; simpl.
    + destruct x as [s|l].
      * destruct (replaceUrls s data) as [s'|e] eqn:Hs; simpl.
        -- intros k. destruct (decide (k = i)) as [->|Hk].
           ++ rewrite !lookup_insert_eq. eauto.
           ++ rewrite !lookup_insert_ne by done. apply IH.
        -- exists i, s. by rewrite lookup_insert_eq.
      * cbn [fst snd]. intros k. destruct (decide (k = i)) as [->|Hk].
        -- rewrite !lookup_insert_eq. reflexivity.
        -- rewrite !lookup_insert_ne by done. apply IH.
    + destruct IH as (k & s & Hk & Hs). exists k, s. split; [|done].
      rewrite lookup_insert_ne; [done|]. intros ->. congruence.
Qed.

(** The store: the call allocates one object and writes to no other. *)
Lemma alloc_fresh (σ : store) : σ !! alloc σ = None.
Proof. apply not_elem_of_dom. unfold alloc. apply is_fresh. Qed.

Lemma mapCachedHeadersToResponse_store hl data record σ hs :
  σ !! hl = Some hs →
  mapCachedHeadersToResponse hl data record σ =
  (<[alloc σ := (map_headers hs data).1]> σ,
   match (map_headers hs data).2 with
   | Ok _ => Ok (alloc σ)
   | Throw e => Throw e
   end).
Proof.
  intros Hhl. unfold mapCachedHeadersToResponse. rewrite Hhl.
  by destruct (map_headers hs data) as [m [[]|e]].
Qed.

(** The headers of the map returned, one by one. *)
Lemma map_headers_ok hs data m :
  map_headers hs data = (m, Ok ()) →
  m !! "cache-control" = Some (HStr "no-cache, no-store") ∧
  m !! "pragma" = Some (HStr "no-cache") ∧
  m !! "etag" = None ∧
  m !! "last-modified" = None ∧
  ∀ k, k ∉ ["cache-control"; "pragma"; "etag"; "last-modified"] →
    match hs !! k with
    | None => m !! k = None
    | Some (HArr l) => m !! k = Some (HArr l)
    | Some (HStr s) =>
        ∃ s', replaceUrls s data = Ok s' ∧
          m !! k = Some (HStr
            (if isRedirectCallback (session data) && bool_decide (k = "location")
             then str_replace "state=STATE" ("state=" +:+ tmpl (state (session data))) s'
             else s'))
    end.
Proof.
  unfold map_headers. pose proof (copy_headers_spec data hs) as Hc.
  destruct (map_fold _ _ hs) as [mapped [[]|e]]; [|done]. unfold copied in Hc. simpl in Hc.
  destruct (isRedirectCallback (session data)) eqn:Hrc.
  - destruct (mapped !! "location") as [[location|l]|] eqn:Hloc; [|done..].
    intros Heq. apply (f_equal fst) in Heq. cbn [fst] in Heq. subst m.
    split_and!; [by rewrite !lookup_delete_ne, lookup_insert_ne, lookup_insert_eq
                |by rewrite !lookup_delete_ne, lookup_insert_eq
                |by rewrite lookup_delete_ne, lookup_delete_eq
                |by rewrite lookup_delete_eq|].
    intros k Hk. rewrite !not_elem_of_cons in Hk. destruct_and!.
    rewrite !lookup_delete_ne, !lookup_insert_ne by done.
    specialize (Hc k). simpl. destruct (decide (k = "location")) as [->|Hkl].
    + rewrite lookup_insert_eq, bool_decide_eq_true_2 by done.
      destruct (hs !! "location") as [[s|l]|]; [|congruence..].
      destruct Hc as (s' & Hs & Hm). exists s'. split; [done|]. congruence.
    + rewrite lookup_insert_ne, bool_decide_eq_false_2 by done. done.
  - intros Heq. apply (f_equal fst) in Heq. cbn [fst] in Heq. subst m.
    split_and!; [by rewrite !lookup_delete_ne, lookup_insert_ne, lookup_insert_eq
                |by rewrite !lookup_delete_ne, lookup_insert_eq
                |by rewrite lookup_delete_ne, lookup_delete_eq
                |by rewrite lookup_delete_eq|].
    intros k Hk. rewrite !not_elem_of_cons in Hk. destruct_and!.
    rewrite !lookup_delete_ne, !lookup_insert_ne by done. apply Hc.
Qed.

Lemma map_headers_returns hs data :
  (∀ s, is_Ok (replaceUrls s data)) →
  (isRedirectCallback (session data) = true → ∃ loc, hs !! "location" = Some (HStr loc)) →
  (map_headers hs data).2 = Ok ().
Proof.
  intros Hrw Hloc. unfold map_headers. pose proof (copy_headers_spec data hs) as Hc.
  destruct (map_fold _ _ hs) as [mapped [[]|e]]; unfold copied in Hc; simpl in Hc.
  - destruct (isRedirectCallback (session data)); [|done].
    destruct (Hloc eq_refl) as [loc Hl]. specialize (Hc "location"). rewrite Hl in Hc.
    destruct Hc as (s' & _ & ->). done.
  - destruct Hc as (k & s & _ & Hs). destruct (Hrw s) as [s' Hs']. congruence.
Qed.

Lemma map_headers_throws hs data :
  (∀ s, is_Ok (replaceUrls s data)) →
  isRedirectCallback (session data) = true →
  (∀ loc, hs !! "location" ≠ Some (HStr loc)) →
  (map_headers hs data).2 = Throw TypeError.
Proof.
  intros Hrw Hrc Hloc. unfold map_headers. pose proof (copy_headers_spec data hs) as Hc.
  destruct (map_fold _ _ hs) as [mapped [[]|e]]; unfold copied in Hc; simpl in Hc.
  - rewrite Hrc. specialize (Hc "location").
    destruct (hs !! "location") as [[loc|l]|] eqn:Hl.
    + by destruct (Hloc loc).
    + by rewrite Hc.
    + by rewrite Hc.
  - destruct Hc as (k & s & _ & Hs). destruct (Hrw s) as [s' Hs']. congruence.
Qed.

(** C9, as the code has it.  Header reconstruction changes no object of the
    store it is given, the recorded map included.  It returns when the
    rewriter does not throw and, for a redirect callback, the recorded map
    has a string [location]; when the rewriter does not throw, it throws a
    [TypeError] for a redirect callback whose recorded map has no string
    [location].  The map returned is a new object in which
    [cache-control] is [no-cache, no-store], [pragma] is [no-cache], [etag]
    and [last-modified] are absent, and every other header is the recorded
    one, rewritten by the url rewriter when it is a string (for a redirect
    callback, [location] has its state placeholder replaced too). *)
Theorem header_reconstruction_frame (hl : loc) (hs : gmap string hval) (data : Data)
    (record : bool) (σ : store) :
  σ !! hl = Some hs →
  (∀ l, is_Some (σ !! l) → (mapCachedHeadersToResponse hl data record σ).1 !! l = σ !! l) ∧
  ((∀ s, is_Ok (replaceUrls s data)) →
   (isRedirectCallback (session data) = true → ∃ loc, hs !! "location" = Some (HStr loc)) →
   is_Ok (mapCachedHeadersToResponse hl data record σ).2) ∧
  ((∀ s, is_Ok (replaceUrls s data)) →
   isRedirectCallback (session data) = true →
   (∀ loc, hs !! "location" ≠ Some (HStr loc)) →
   (mapCachedHeadersToResponse hl data record σ).2 = Throw TypeError) ∧
  ∀ ml, (mapCachedHeadersToResponse hl data record σ).2 = Ok ml →
    σ !! ml = None ∧
    ∃ m, (mapCachedHeadersToResponse hl data record σ).1 !! ml = Some m ∧
      m !! "cache-control" = Some (HStr "no-cache, no-store") ∧
      m !! "pragma" = Some (HStr "no-cache") ∧
      m !! "etag" = None ∧
      m !! "last-modified" = None ∧
      ∀ k, k ∉ ["cache-control"; "pragma"; "etag"; "last-modified"] →
        match hs !! k with
        | None => m !! k = None
        | Some (HArr l) => m !! k = Some (HArr l)
        | Some (HStr s) =>
            ∃ s', replaceUrls s data = Ok s' ∧
              m !! k = Some (HStr
                (if isRedirectCallback (session data) && bool_decide (k = "location")
                 then str_replace "state=STATE" ("state=" +:+ tmpl (state (session data))) s'
                 else s'))
        end.
Proof.
  intros Hhl. rewrite (mapCachedHeadersToResponse_store _ _ _ _ _ Hhl). cbn [fst snd].
  split_and!.
  - intros l [x Hl]. rewrite lookup_insert_ne; [done|]. intros <-.
    rewrite alloc_fresh in Hl. done.
  - intros Hrw Hloc. rewrite (map_headers_returns hs data Hrw Hloc). by eexists.
  - intros Hrw Hrc Hloc. by rewrite (map_headers_throws hs data Hrw Hrc Hloc).
  - intros ml Hml. destruct (map_headers hs data) as [m [[]|e]] eqn:Hm; [|done].
    injection Hml as <-. split; [apply alloc_fresh|].
    exists m. rewrite lookup_insert_eq. split; [done|]. by apply map_headers_ok.
Qed.

End Headers.

(** ** Objects *)



(** ** Computations *)


Lemma bind_Throw {A B} (m : M A) (f : A → M B) n e :
  m n = Throw e → bind m f n = Throw e.
Proof. unfold bind. by intros ->. Qed.





Lemma match_1_Ok r s t : match_1 r s = Ok t → is_Some (re_exec r s).
Proof. unfold match_1. destruct (re_exec r s); [by eauto|done]. Qed.

(** ** What [logDiff] throws *)





Lemma logDiff_cases before after :
  logDiff before after = Ok () ∨ logDiff before after = Throw TypeError.
Proof. unfold logDiff. destruct before; try (by left); by case_match; auto. Qed.





Section Tokens.
Context `{Deps}.









End Tokens.

Section TokenProperties.
Context `{Deps}.








End TokenProperties.

(** ** The token markers *)

Lemma lits_inv s tail w v :
  Matches (lits s tail) w v → ∃ w', w = s +:+ w' ∧ Matches tail w' v.
Proof.
  revert w. induction s as [|c s IH]; intros w Hm.
  - by exists w.
  - change (lits (String c s) tail) with (Seq (lit_chr c) (lits s tail)) in Hm.
    inversion Hm as [| |a b w1 w2 v' Ha Hb| | | | | |]; subst.
    inversion Ha as [p x v' Hpx| | | | | | | |]; subst.
    apply Ascii.eqb_eq in Hpx as ->.
    destruct (IH _ Hb) as (w' & -> & Ht). by exists w'.
Qed.



Section BodyProperties.
Context `{Deps}.





(** C4, as the code has it.  For an authorize request whose parsed query
    gives the strings [S] and [N] for [state] and [nonce], normalisation (when
    it returns) records them, and leaves as url the url with the first
    [state=S] replaced by [state=STATE], then the first [nonce=N] by
    [nonce=NONCE], then the scope order made canonical.  The text [state=S]
    is replaced where it first occurs, be it at the end of the name of
    another parameter.  [S] is the decoded value and is looked for in the raw
    url: where the url does not hold [state=S], the state stays in the url,
    which holds the placeholder only if the request had it.  Reconstructing
    the headers of a redirect callback with the recorded state, from a
    recorded [location] that holds [state=STATE] once its urls are rewritten,
    returns a [location] with [state=S] at the first placeholder when [S]
    holds no [$]; of a state [a$$b] the [location] returned has [a$b]. *)
Theorem state_round_trip (req req1 : Request) (record : bool) (d : SessionData)
    (q : gmap string qval) (S N : string) :
  includes (url req) "authorize?" = true →
  parseQuery (url req) = Ok q →
  q !! "state" = Some (QStr S) →
  q !! "nonce" = Some (QStr N) →
  mapRequestToCache req record = (req1, Ok d) →
  (isAuthorizeReq d = true ∧ state d = Some (QStr S) ∧ nonce d = Some (QStr N)) ∧
  url req1 =
    str_replace "profile%20email%20openid" "openid%20profile%20email"
      (str_replace ("nonce=" +:+ N) "nonce=NONCE"
         (str_replace ("state=" +:+ S) "state=STATE" (url req))) ∧
  (∀ pre post, str_find ("state=" +:+ S) (url req) = Some (pre, post) →
     str_replace ("state=" +:+ S) "state=STATE" (url req) = pre +:+ "state=STATE" +:+ post) ∧
  (includes (url req) ("state=" +:+ S) = false →
   str_replace ("state=" +:+ S) "state=STATE" (url req) = url req ∧
   (includes (url req1) "state=STATE" = true → includes (url req) "state=STATE" = true)) ∧
  ∀ (data : Data) (σ : store) (hl : loc) (hs : gmap string hval)
    (location location' pre post : string),
    state (session data) = state d →
    isRedirectCallback (session data) = true →
    σ !! hl = Some hs →
    hs !! "location" = Some (HStr location) →
    replaceUrls location data = Ok location' →
    str_find "state=STATE" location' = Some (pre, post) →
    ∃ ml m restored,
      mapCachedHeadersToResponse hl data record σ = (<[ml := m]> σ, Ok ml) ∧
      m !! "location" = Some (HStr restored) ∧
      (str_mem "$" S = false → restored = pre +:+ "state=" +:+ S +:+ post) ∧
      (∀ a b, S = a +:+ "$$" +:+ b → str_mem "$" a = false → str_mem "$" b = false →
         restored = pre +:+ "state=" +:+ a +:+ "$" +:+ b +:+ post).
Proof.
  intros Hauth Hq HS HN Hrun.
  assert (Hacrh : truthy (headers req !! "access-control-request-method") = true →
                  is_Some (headers req !! "access-control-request-headers")).
  { intros Hpre. destruct (headers req !! "access-control-request-headers") eqn:E; [eauto|].
    pose proof (mapRequestToCache_throws req record Hpre E) as Ht.
    by rewrite Hrun in Ht. }
  rewrite (mapRequestToCache_returns req record Hacrh) in Hrun.
  unfold flows in Hrun. rewrite Hauth, Hq in Hrun. cbv zeta in Hrun. rewrite HS, HN in Hrun.
  simpl in Hrun. injection Hrun as <- <-. simpl.
  split_and!; try done.
  - intros pre post Hfind. by apply str_replace_plain.
  - intros Hno. split; [by apply str_replace_absent|].
    rewrite (str_replace_absent _ _ _ Hno). intros Hinc.
    apply (includes_before_replace "s" "tate=STATE" "o" "penid%20profile%20email") in Hinc;
      [|done..].
    by apply (includes_before_replace "s" "tate=STATE" "n" "once=NONCE") in Hinc.
  - intros data σ hl hs location location' pre post Hstate Hrc Hhl Hloc Hrw Hfind.
    rewrite (mapCachedHeadersToResponse_store _ _ _ _ _ Hhl).
    assert (Hok : (map_headers hs data).2 = Ok ()).
    { apply map_headers_returns; [|by eauto].
      intros s. apply (replaceUrls_ok_any location). by eexists. }
    destruct (map_headers hs data) as [m r] eqn:Hm. simpl in Hok. subst r.
    destruct (map_headers_ok _ _ _ Hm) as (_ & _ & _ & _ & Hk).
    specialize (Hk "location"). rewrite Hloc in Hk.
    destruct Hk as (s' & Hs' & Hml); [apply (bool_decide_unpack _); by vm_compute|].
    rewrite Hrw in Hs'. injection Hs' as <-.
    rewrite Hrc, Hstate in Hml. simpl in Hml.
    eexists _, m, _. split_and!; [done|exact Hml|..].
    + intros Hplain. by rewrite (str_replace_plain _ ("state=" +:+ S) _ _ _ Hplain Hfind).
    + intros a b -> Ha Hb. unfold str_replace. rewrite Hfind.
      change ("state=" +:+ a +:+ "$$" +:+ b) with (("state=" +:+ a) +:+ "$$" +:+ b).
      rewrite (get_substitution_dollars _ _ _ _ ("state=" +:+ a) b Ha Hb).
      f_equal. by rewrite <- !app_assoc.
Qed.

End BodyProperties.

(** ** The properties on concrete requests and responses *)

(** C10 on a request to the API without an [accept] header. *)
Lemma accept_absent_stays_absent_witness :
  headers (plain_request "/api/v1/users/me" [("host", "localhost:7777")]) !! "accept" = None ∧
  headers (mapRequestToCache (H:=node_deps)
             (plain_request "/api/v1/users/me" [("host", "localhost:7777")]) false).1
    !! "accept" = None.
Proof.
  split; [reflexivity|].
  apply (@accept_absent_stays_absent node_deps
           (plain_request "/api/v1/users/me" [("host", "localhost:7777")]) false).
  reflexivity.
Defined.

(** C3 on a preflight request whose header names are in lower case. *)
Lemma preflight_request_headers_normalized_witness :
  truthy (headers (preflight_request "origin, x-foo, accept")
            !! "access-control-request-method") = true ∧
  headers (mapRequestToCache (H:=node_deps)
             (preflight_request "origin, x-foo, accept") false).1
    !! "access-control-request-headers" = Some "x-foo" ∧
  is_Ok (mapRequestToCache (H:=node_deps)
           (preflight_request "origin, x-foo, accept") false).2.
Proof.
  split; [reflexivity|].
  destruct (@preflight_request_headers_normalized node_deps
              (preflight_request "origin, x-foo, accept") false eq_refl) as [Hv _].
  destruct (Hv "origin, x-foo, accept" eq_refl) as (_ & _ & _ & Hex & Hret).
  split; [exact (Hex eq_refl)|].
  apply Hret. intros Hauth. vm_compute in Hauth. discriminate Hauth.
Defined.

(** C3: the value [Origin, X-Foo, Accept] keeps its three entries, in their
    own case; and a preflight request without the header makes
    normalisation throw. *)
Lemma preflight_keeps_case_counterexample :
  headers (mapRequestToCache (H:=node_deps)
             (preflight_request "Origin, X-Foo, Accept") false).1
    !! "access-control-request-headers" = Some "Accept, Origin, X-Foo" ∧
  truthy (headers bare_preflight_request !! "access-control-request-method") = true ∧
  (mapRequestToCache (H:=node_deps) bare_preflight_request false).2 = Throw TypeError.
Proof. split_and!; vm_compute; reflexivity. Defined.

(** C8 on the authorize request. *)
Lemma normalize_twice_same_headers_witness :
  scrub_cookie (Some (scrub_cookie (headers authorize_request !! "cookie")))
    = scrub_cookie (headers authorize_request !! "cookie") ∧
  ∃ req2 d2,
    mapRequestToCache (H:=node_deps)
      (mapRequestToCache (H:=node_deps) authorize_request false).1 false = (req2, Ok d2) ∧
    headers req2 = headers (mapRequestToCache (H:=node_deps) authorize_request false).1.
Proof.
  split; [vm_compute; reflexivity|].
  apply (@normalize_twice_same_headers node_deps authorize_request
           (mapRequestToCache (H:=node_deps) authorize_request false).1 false
           {| isAuthorizeReq := true; responseMode := Some (QStr "okta_post_message");
              state := Some (QStr "st-1"); nonce := Some (QStr "n-1");
              cookie := Some "session=abc";
              isRedirectCallback := false; isTokenReq := false |}).
  - vm_compute; reflexivity.
  - vm_compute; reflexivity.
  - intros _. split; vm_compute; reflexivity.
Defined.

(** C8: a cookie in which the removal of one [ADRUM] fragment forms another
    is scrubbed further by a second pass; and a userinfo url that is an
    authorize url only through its state gets an [authorization] header on
    the second pass. *)
Lemma normalize_twice_differs_counterexample :
  (headers (mapRequestToCache (H:=node_deps) cookie_request false).1 !! "cookie"
     = Some "ADRUMy; z" ∧
   headers (mapRequestToCache (H:=node_deps)
              (mapRequestToCache (H:=node_deps) cookie_request false).1 false).1 !! "cookie"
     = Some "z") ∧
  (headers (mapRequestToCache (H:=node_deps) userinfo_request false).1 !! "authorization"
     = None ∧
   headers (mapRequestToCache (H:=node_deps)
              (mapRequestToCache (H:=node_deps) userinfo_request false).1 false).1
     !! "authorization" = Some "Bearer recorded.access.token").
Proof. split_and!; vm_compute; reflexivity. Qed.



(** C9 on a store that holds the recorded redirect response. *)
Lemma header_reconstruction_frame_witness :
  one_object redirect_response !! 1%positive = Some redirect_response ∧
  (mapCachedHeadersToResponse (H:=node_deps) 1%positive (example_data no_session) false
     (one_object redirect_response)).1 !! 1%positive = Some redirect_response ∧
  ∃ m,
    (mapCachedHeadersToResponse (H:=node_deps) 1%positive (example_data no_session) false
       (one_object redirect_response)).1 !! 2%positive = Some m ∧
    m !! "etag" = None ∧
    m !! "set-cookie" = Some (HArr ["sid=1"; "t=2"]).
Proof.
  assert (Hhl : one_object redirect_response !! 1%positive = Some redirect_response)
    by reflexivity.
  split; [exact Hhl|].
  destruct (@header_reconstruction_frame node_deps 1%positive redirect_response
              (example_data no_session) false (one_object redirect_response) Hhl)
    as (Hframe & _ & _ & Hnew).
  split.
  - rewrite Hframe by (by exists redirect_response). exact Hhl.
  - destruct (Hnew 2%positive) as (_ & m & Hm & _ & _ & Hetag & _ & Hrest);
      [vm_compute; reflexivity|].
    exists m. split_and!; [exact Hm|exact Hetag|].
    apply (Hrest "set-cookie"). apply (bool_decide_unpack _). by vm_compute.
Defined.

(** C9: for a redirect callback, reconstruction throws on a recorded map
    without [location]; with one, the [location] returned is not the text the
    url rewriter gives but that text with the state restored. *)
Lemma header_reconstruction_throws_counterexample :
  (mapCachedHeadersToResponse (H:=node_deps) 1%positive
     (example_data (redirect_session "st-1")) false
     (one_object {["etag" := HStr "W/1"]})).2 = Throw TypeError ∧
  (mapCachedHeadersToResponse (H:=node_deps) 1%positive
     (example_data (redirect_session "st-1")) false (one_object redirect_response)).2
    = Ok 2%positive ∧
  replaceUrls (H:=node_deps) "https://upstream.example.com:1802/cb?code=c-1&state=STATE"
    (example_data (redirect_session "st-1"))
    = Ok "http://localhost:7777/cb?code=c-1&state=STATE" ∧
  (mapCachedHeadersToResponse (H:=node_deps) 1%positive
     (example_data (redirect_session "st-1")) false (one_object redirect_response)).1
    !! 2%positive ≫= (.!! "location")
    = Some (HStr "http://localhost:7777/cb?code=c-1&state=st-1").
Proof. split_and!; vm_compute; reflexivity. Qed.

(** C4 on the authorize request and the recorded redirect response. *)
Lemma state_round_trip_witness :
  (includes (url authorize_request) "authorize?" = true ∧
   result_map (.!! "state") (parseQuery (H:=node_deps) (url authorize_request))
     = Ok (Some (QStr "st-1")) ∧
   result_map (.!! "nonce") (parseQuery (H:=node_deps) (url authorize_request))
     = Ok (Some (QStr "n-1"))) ∧
  url (mapRequestToCache (H:=node_deps) authorize_request false).1
    = "/oauth2/v1/authorize?client_id=c1&response_mode=okta_post_message"
      +:+ "&scope=openid%20profile%20email&state=STATE&nonce=NONCE" ∧
  ∃ ml m,
    mapCachedHeadersToResponse (H:=node_deps) 1%positive
      (example_data (redirect_session "st-1")) false (one_object redirect_response)
      = (<[ml := m]> (one_object redirect_response), Ok ml) ∧
    m !! "location" = Some (HStr "http://localhost:7777/cb?code=c-1&state=st-1").
Proof.
  split; [split_and!; vm_compute; reflexivity|].
  destruct (@state_round_trip node_deps authorize_request
              (mapRequestToCache (H:=node_deps) authorize_request false).1 false
              {| isAuthorizeReq := true; responseMode := Some (QStr "okta_post_message");
                 state := Some (QStr "st-1"); nonce := Some (QStr "n-1");
                 cookie := Some "session=abc";
                 isRedirectCallback := false; isTokenReq := false |}
              (Node.querystring_parse (query (Node.url_parse (url authorize_request))))
              "st-1" "n-1")
    as (_ & Hurl & _ & _ & Hback); try (vm_compute; reflexivity).
  split; [rewrite Hurl; vm_compute; reflexivity|].
  destruct (Hback (example_data (redirect_session "st-1")) (one_object redirect_response)
              1%positive redirect_response
              "https://upstream.example.com:1802/cb?code=c-1&state=STATE"
              "http://localhost:7777/cb?code=c-1&state=STATE"
              "http://localhost:7777/cb?code=c-1&" "")
    as (ml & m & restored & Hrun & Hloc & Hplain & _); try (vm_compute; reflexivity).
  exists ml, m. split; [exact Hrun|].
  rewrite Hloc, (Hplain eq_refl). reflexivity.
Defined.

(** C4: a state [a$$b] is recorded as it is but restored as [a$b]; and for a
    url with [state=a%2Fb] the state recorded is [a/b] and the url keeps its
    state. *)
Lemma state_round_trip_counterexample :
  (includes (url dollar_request) "state=a$$b" = true ∧
   mapRequestToCache (H:=node_deps) dollar_request false
     = ({| method := "GET"; url := "/oauth2/v1/authorize?state=STATE&nonce=NONCE";
           headers := headers (mapRequestToCache (H:=node_deps) dollar_request false).1 |},
        Ok {| isAuthorizeReq := true; responseMode := None;
              state := Some (QStr "a$$b"); nonce := Some (QStr "n-1");
              cookie := Some "";
              isRedirectCallback := false; isTokenReq := false |}) ∧
   (mapCachedHeadersToResponse (H:=node_deps) 1%positive
      (example_data (redirect_session "a$$b")) false (one_object redirect_response)).1
     !! 2%positive ≫= (.!! "location")
     = Some (HStr "http://localhost:7777/cb?code=c-1&state=a$b") ∧
   includes "http://localhost:7777/cb?code=c-1&state=a$b" "state=a$$b" = false) ∧
  (includes (url escaped_request) "state=a%2Fb" = true ∧
   mapRequestToCache (H:=node_deps) escaped_request false
     = ({| method := "GET"; url := "/oauth2/v1/authorize?state=a%2Fb&nonce=NONCE";
           headers := headers (mapRequestToCache (H:=node_deps) escaped_request false).1 |},
        Ok {| isAuthorizeReq := true; responseMode := None;
              state := Some (QStr "a/b"); nonce := Some (QStr "n-1");
              cookie := Some "";
              isRedirectCallback := false; isTokenReq := false |})).
Proof. split_and!; vm_compute; reflexivity. Qed.







(** ** The request normaliser, header by header and flow by flow *)

Ltac literal_goal := apply (bool_decide_unpack _); by vm_compute.

Section NormalizerFlows.
Context `{Deps}.

(** What the flow-specific part does to [cookie] and [authorization], and
    what it returns. *)
Lemma flows_method req record hs : method (flows req record hs).1 = method req.
Proof. unfold flows. by repeat case_match. Qed.

Lemma flows_url req record hs :
  includes (url req) "authorize?" = false → url (flows req record hs).1 = url req.
Proof. intros Hno. unfold flows. rewrite Hno. by repeat case_match. Qed.

Lemma flows_cookie req record hs d :
  (flows req record hs).2 = Ok d →
  headers (flows req record hs).1 !! "cookie" =
    (if includes (url req) "authorize?" || bool_decide (url req = "/api/v1/authn")
     then None else hs !! "cookie") ∧
  cookie d =
    if includes (url req) "authorize?" || bool_decide (url req = "/api/v1/authn")
       || (includes (url req) "/sessions/me" && bool_decide (method req = "DELETE"))
    then hs !! "cookie" else None.
Proof.
  unfold flows. destruct (includes (url req) "authorize?"); simpl.
  { destruct (parseQuery (url req)) as [q|e]; [|done]. simpl. intros [= <-].
    split; [by rewrite lookup_delete_eq|done]. }
  destruct (decide (url req = "/api/v1/authn")) as [Hu|Hu].
  { rewrite (bool_decide_eq_true_2 (url req = "/api/v1/authn")) by done. simpl.
    intros [= <-]. split; [by rewrite lookup_delete_eq|done]. }
  rewrite (bool_decide_eq_false_2 (url req = "/api/v1/authn")) by done. simpl.
  destruct (includes (url req) "/sessions/me") eqn:Hs;
    destruct (bool_decide (method req = "DELETE")) eqn:Hm; simpl.
  all: repeat case_match; simpl; intros [= <-]; (split; [by rewrite ?lookup_insert_ne|done]).
Qed.

Lemma flows_flags req record hs d :
  (flows req record hs).2 = Ok d →
  isAuthorizeReq d = includes (url req) "authorize?" ∧
  (isRedirectCallback d = true →
     isAuthorizeReq d = false ∧ isTokenReq d = false ∧
     indexOf_is_0 (url req) "/oauth2/v1/authorize/redirect" = true) ∧
  (isTokenReq d = true →
     isAuthorizeReq d = false ∧ isRedirectCallback d = false ∧
     indexOf_is_0 (url req) "/oauth2/default/v1/token" = true) ∧
  (isAuthorizeReq d = false → responseMode d = None ∧ state d = None ∧ nonce d = None).
Proof.
  unfold flows. destruct (includes (url req) "authorize?"); simpl.
  { destruct (parseQuery (url req)) as [q|e]; [|done]. by intros [= <-]. }
  repeat case_match; intros [= <-]; simpl; split_and!; try done.
Qed.


(** The canonical headers and the thrown case agree on every header that is
    set before the place that can throw. *)
Lemma mapRequestToCache_cases req record :
  (truthy (headers req !! "access-control-request-method") = true ∧
   headers req !! "access-control-request-headers" = None ∧
   (mapRequestToCache req record).2 = Throw TypeError) ∨
  mapRequestToCache req record =
    flows req record (canon (truthy (headers req !! "access-control-request-method"))
                        (url req) (headers req)).
Proof.
  destruct (truthy (headers req !! "access-control-request-method")) eqn:Hpre.
  - destruct (headers req !! "access-control-request-headers") as [v|] eqn:Hv.
    + right. rewrite mapRequestToCache_returns; [by rewrite Hpre|]. by rewrite Hv.
    + left. split_and!; [done..|]. by apply mapRequestToCache_throws.
  - right. rewrite mapRequestToCache_returns; [by rewrite Hpre|]. by rewrite Hpre.
Qed.



End NormalizerFlows.

Section NormalizerHeaders.
Context `{Deps}.

(** X1.  Whatever the request and whether or not normalisation throws, the
    six headers that vary between browsers are absent from the headers it
    leaves and [user-agent], [connection], [accept-language] and
    [accept-encoding] have their fixed values; when it returns,
    [cache-control] and [pragma] have theirs too. *)
Theorem volatile_headers_fixed (req : Request) (record : bool) :
  (∀ k, k ∈ ["upgrade-insecure-requests"; "x-okta-user-agent-extended"; "if-none-match";
             "if-modified-since"; "expect"; "referer"] →
        headers (mapRequestToCache req record).1 !! k = None) ∧
  headers (mapRequestToCache req record).1 !! "user-agent" = Some user_agent ∧
  headers (mapRequestToCache req record).1 !! "connection" = Some "keep-alive" ∧
  headers (mapRequestToCache req record).1 !! "accept-language" = Some "en-US" ∧
  headers (mapRequestToCache req record).1 !! "accept-encoding" = Some "gzip" ∧
  (is_Ok (mapRequestToCache req record).2 →
   headers (mapRequestToCache req record).1 !! "cache-control" = Some "no-cache, no-store" ∧
   headers (mapRequestToCache req record).1 !! "pragma" = Some "no-cache").
Proof.
  split_and!.
  - intros k Hk. rewrite mapRequestToCache_lookup.
    + rewrite !elem_of_cons in Hk.
      destruct Hk as [->|[->|[->|[->|[->|[->|Hk]]]]]]; [by destruct (truthy _)..|].
      by apply elem_of_nil in Hk.
    + rewrite !elem_of_cons in Hk. rewrite !not_elem_of_cons.
      destruct Hk as [->|[->|[->|[->|[->|[->|Hk]]]]]];
        [split_and!; try literal_goal; apply not_elem_of_nil..|].
      by apply elem_of_nil in Hk.
  - rewrite mapRequestToCache_lookup by literal_goal. by destruct (truthy _).
  - rewrite mapRequestToCache_lookup by literal_goal. by destruct (truthy _).
  - rewrite mapRequestToCache_lookup by literal_goal. by destruct (truthy _).
  - rewrite mapRequestToCache_lookup by literal_goal. by destruct (truthy _).
  - intros [d Hd]. destruct (mapRequestToCache_cases req record) as [(_ & _ & Ht)|Hr].
    { by rewrite Hd in Ht. }
    rewrite Hr. rewrite !flows_lookup by literal_goal. rewrite !canon_lookup.
    split; by destruct (truthy _).
Qed.

(** X2.  An [accept] header that is present and not empty is replaced by one
    of three values: the html list when it names [text/html] (also when it
    names [json] as well), [application/json] when it names [json] only, and
    [*/*] otherwise.  An empty [accept] header stays empty. *)
Theorem accept_header_classes (req : Request) (record : bool) (a : string) :
  headers req !! "accept" = Some a →
  headers (mapRequestToCache req record).1 !! "accept" =
    Some (if decide (a = "") then ""
          else if includes a "text/html" then accept_html
          else if includes a "json" then "application/json"
          else "*/*").
Proof.
  intros Ha. rewrite mapRequestToCache_accept, Ha. unfold canon_accept.
  destruct a as [|c a]; [done|]. simpl. done.
Qed.

(** X3.  The [content-type] a request is left with is [application/json]
    when it is not a preflight request and its url contains [/api/v1], and is
    the one it came with (or none) otherwise. *)
Theorem content_type_forced_for_api (req : Request) (record : bool) :
  headers (mapRequestToCache req record).1 !! "content-type" =
    if negb (truthy (headers req !! "access-control-request-method"))
       && includes (url req) "/api/v1"
    then Some "application/json"
    else headers req !! "content-type".
Proof. rewrite mapRequestToCache_lookup by literal_goal. apply canon_key_ctype. Qed.

(** X4.  [content-length] is removed only from a preflight request and only
    when it is the text [0]; every other value, and every value of a request
    that is not a preflight request, is kept. *)
Theorem content_length_dropped_on_empty_preflight (req : Request) (record : bool) :
  headers (mapRequestToCache req record).1 !! "content-length" =
    if truthy (headers req !! "access-control-request-method")
       && bool_decide (headers req !! "content-length" = Some "0")
    then None
    else headers req !! "content-length".
Proof.
  rewrite mapRequestToCache_lookup by literal_goal. rewrite canon_key_clen.
  destruct (truthy _); [|done]. simpl. destruct (decide _) as [E|E].
  - by rewrite bool_decide_eq_true_2.
  - by rewrite bool_decide_eq_false_2.
Qed.

(** X5.  A header that the normaliser has no rule for is left as it is,
    present or absent, whether or not the call throws. *)
Theorem other_headers_untouched (req : Request) (record : bool) (k : string) :
  k ∉ ["upgrade-insecure-requests"; "x-okta-user-agent-extended"; "if-none-match";
       "if-modified-since"; "expect"; "referer"; "user-agent"; "connection";
       "accept-language"; "accept-encoding"; "accept"; "content-type"; "content-length";
       "access-control-request-headers"; "cookie"; "cache-control"; "pragma";
       "authorization"] →
  headers (mapRequestToCache req record).1 !! k = headers req !! k.
Proof.
  intros Hk. rewrite !not_elem_of_cons in Hk. destruct_and!.
  rewrite mapRequestToCache_lookup by (rewrite !not_elem_of_cons; split_and!; try done;
                                        apply not_elem_of_nil).
  apply canon_key_other. rewrite !not_elem_of_cons. split_and!; try done.
Qed.

(** X6.  When normalisation returns, the cookie is withheld from an authorize
    request and from a request to [/api/v1/authn], and is returned in the
    data instead; every other request is left with a [cookie] header, the
    empty one when it came without; the data has the cookie of a [DELETE] of
    [/sessions/me] as well.  The cookie is the one of the request with its
    [ADRUM] fragments removed. *)
Theorem cookie_withheld_or_scrubbed (req req1 : Request) (record : bool) (d : SessionData) :
  mapRequestToCache req record = (req1, Ok d) →
  headers req1 !! "cookie" =
    (if includes (url req) "authorize?" || bool_decide (url req = "/api/v1/authn")
     then None else Some (scrub_cookie (headers req !! "cookie"))) ∧
  cookie d =
    (if includes (url req) "authorize?" || bool_decide (url req = "/api/v1/authn")
        || (includes (url req) "/sessions/me" && bool_decide (method req = "DELETE"))
     then Some (scrub_cookie (headers req !! "cookie")) else None) ∧
  (headers req !! "cookie" = None → scrub_cookie (headers req !! "cookie") = "").
Proof.
  intros Hrun. destruct (mapRequestToCache_cases req record) as [(_ & _ & Ht)|Hr].
  { by rewrite Hrun in Ht. }
  rewrite Hrun in Hr.
  destruct (flows_cookie req record
              (canon (truthy (headers req !! "access-control-request-method"))
                 (url req) (headers req)) d) as [Hc Hd]; [by rewrite <- Hr|].
  rewrite <- Hr in Hc. simpl in Hc.
  rewrite canon_lookup, canon_key_cookie in Hc, Hd.
  split_and!; [done..|]. by intros ->.
Qed.

(** X7.  The data returned has at most one of the three flow flags set; the
    authorize flag is set exactly for a url that contains [authorize?], the
    other two only for a url that starts with the path of their flow; and
    [responseMode], [state] and [nonce] are recorded for an authorize request
    only. *)
Theorem flow_flags_exclusive (req req1 : Request) (record : bool) (d : SessionData) :
  mapRequestToCache req record = (req1, Ok d) →
  isAuthorizeReq d = includes (url req) "authorize?" ∧
  (isRedirectCallback d = true →
     isAuthorizeReq d = false ∧ isTokenReq d = false ∧
     indexOf_is_0 (url req) "/oauth2/v1/authorize/redirect" = true) ∧
  (isTokenReq d = true →
     isAuthorizeReq d = false ∧ isRedirectCallback d = false ∧
     indexOf_is_0 (url req) "/oauth2/default/v1/token" = true) ∧
  (isAuthorizeReq d = false → responseMode d = None ∧ state d = None ∧ nonce d = None).
Proof.
  intros Hrun. destruct (mapRequestToCache_cases req record) as [(_ & _ & Ht)|Hr].
  { by rewrite Hrun in Ht. }
  apply (flows_flags req record
           (canon (truthy (headers req !! "access-control-request-method"))
              (url req) (headers req))).
  by rewrite <- Hr, Hrun.
Qed.

(** X8.  Normalisation never changes the method, and changes the url of an
    authorize request only: a url without [authorize?] is left as it is,
    whether or not the call throws. *)
Theorem url_kept_unless_authorize (req : Request) (record : bool) :
  method (mapRequestToCache req record).1 = method req ∧
  (includes (url req) "authorize?" = false → url (mapRequestToCache req record).1 = url req).
Proof.
  rewrite mapRequestToCache_unfold. cbv zeta.
  destruct (canon_preflight _ _) as [hs [[]|e]]; simpl; [|done].
  split; [apply flows_method|apply flows_url].
Qed.


(** X20.  Normalisation throws in two cases only: with a [TypeError] for a
    preflight request without an [access-control-request-headers] header,
    and, for any other request whose url holds [authorize?] and is rejected
    by [url.parse], with the exception of [url.parse].  In the first case the
    request has been changed up to that place only: its [cookie],
    [cache-control], [pragma] and [authorization] headers, its url and its
    method are as they came.  In the second case the url, the method and the
    [authorization] header are as they came, the [cookie] header is there,
    without its [ADRUM] fragments, and [cache-control] and [pragma] have
    their fixed values. *)
Theorem thrown_normalisation_is_partial (req : Request) (record : bool) :
  (∀ e, (mapRequestToCache req record).2 = Throw e ↔
     (truthy (headers req !! "access-control-request-method") = true ∧
      headers req !! "access-control-request-headers" = None ∧ e = TypeError) ∨
     (¬ (truthy (headers req !! "access-control-request-method") = true ∧
         headers req !! "access-control-request-headers" = None) ∧
      includes (url req) "authorize?" = true ∧ url_parse_throws (url req) = Some e)) ∧
  (truthy (headers req !! "access-control-request-method") = true →
   headers req !! "access-control-request-headers" = None →
   url (mapRequestToCache req record).1 = url req ∧
   method (mapRequestToCache req record).1 = method req ∧
   ∀ k, k ∈ ["cookie"; "cache-control"; "pragma"; "authorization"] →
        headers (mapRequestToCache req record).1 !! k = headers req !! k) ∧
  (∀ e, ¬ (truthy (headers req !! "access-control-request-method") = true ∧
           headers req !! "access-control-request-headers" = None) →
   includes (url req) "authorize?" = true →
   url_parse_throws (url req) = Some e →
   url (mapRequestToCache req record).1 = url req ∧
   method (mapRequestToCache req record).1 = method req ∧
   headers (mapRequestToCache req record).1 !! "authorization"
     = headers req !! "authorization" ∧
   headers (mapRequestToCache req record).1 !! "cookie"
     = Some (scrub_cookie (headers req !! "cookie")) ∧
   headers (mapRequestToCache req record).1 !! "cache-control" = Some "no-cache, no-store" ∧
   headers (mapRequestToCache req record).1 !! "pragma" = Some "no-cache").
Proof.
  set (pre := truthy (headers req !! "access-control-request-method")).
  set (C0 := canon pre (url req) (headers req)).
  assert (Hflows : ¬ (pre = true ∧ headers req !! "access-control-request-headers" = None) →
                   mapRequestToCache req record = flows req record C0).
  { intros Hno. apply mapRequestToCache_returns. fold pre. intros Hp.
    destruct (headers req !! "access-control-request-headers") eqn:E; [eauto|].
    by destruct Hno. }
  split_and!.
  - intros e.
    destruct (decide (pre = true ∧ headers req !! "access-control-request-headers" = None))
      as [[Hp Ha]|Hno].
    + pose proof (mapRequestToCache_throws req record Hp Ha) as Ht. split.
      * intros He. left. split_and!; [done..|]. congruence.
      * intros [(_ & _ & ->)|(Hno & _)]; [done|]. by destruct Hno.
    + rewrite (Hflows Hno), flows_throws. split.
      * intros [Hauth He]. by right.
      * intros [(Hp & Ha & _)|(_ & Hauth & He)]; [by destruct Hno|done].
  - intros Hp Ha.
    pose proof (mapRequestToCache_unfold req record) as Hu. cbv zeta in Hu.
    fold pre in Hp. fold pre in Hu. rewrite Hp in Hu.
    pose proof (canon_preflight_lookup true (canon_start true (url req) (headers req))) as Hl.
    destruct (canon_preflight_throws true (canon_start true (url req) (headers req)))
      as [_ Hthrows].
    destruct (canon_preflight true (canon_start true (url req) (headers req)))
      as [hs r] eqn:Hc.
    simpl in Hthrows. rewrite Hthrows in Hu.
    2:{ split; [done|]. rewrite canon_start_lookup.
        rewrite key_ctype_other, key_accept_other by done. rewrite Ha.
        apply key_base_other. apply (bool_decide_unpack _). by vm_compute. }
    rewrite Hu. simpl. split_and!; [done..|]. intros k Hk. simpl in Hl. rewrite Hl.
    rewrite canon_start_lookup.
    rewrite !elem_of_cons in Hk.
    destruct Hk as [->|[->|[->|[->|Hk]]]]; [done..|]. by apply elem_of_nil in Hk.
  - intros e Hno Hauth He. rewrite (Hflows Hno).
    assert (Ht : (flows req record C0).2 = Throw e) by by apply flows_throws.
    rewrite (flows_thrown _ _ _ _ Ht). simpl. unfold C0. rewrite !canon_lookup.
    split_and!; [done|done| |by rewrite canon_key_cookie|by destruct pre|by destruct pre].
    apply canon_key_other. literal_goal.
Qed.

End NormalizerHeaders.

(** ** The token swappers: failures and the claims left alone *)

Lemma set_prop_primitive v k x : is_primitive v = true → set_prop v k x = Throw TypeError.
Proof. by destruct v. Qed.

Section TokenFailures.
Context `{Deps}.








End TokenFailures.

(** ** The url rewriter where nothing matches, and where it cannot run *)

Lemma re_replace_all_no_match r rep s : re_exec r s = None → re_replace_all r rep s = s.
Proof. intros He. unfold re_replace_all. simpl. by rewrite He. Qed.

(** A source without dots matches its own text only. *)
Lemma chrs_inv src l tail w v :
  source_atoms src = Some l → str_mem "." src = false →
  Matches (chrs l tail) w v → ∃ w', w = src +:+ w' ∧ Matches tail w' v.
Proof.
  revert l w. induction src as [|c src IH]; intros l w Hl Hdot Hm.
  - simpl in Hl. injection Hl as <-. by exists w.
  - simpl in Hl, Hdot. apply orb_false_iff in Hdot as [Hc Hdot].
    destruct (source_atoms src) as [l'|] eqn:Hsrc; [|done].
    rewrite Hc in Hl. destruct (is_syntax_char c); [done|]. injection Hl as <-.
    change (chrs (Ascii.eqb c :: l') tail) with (Seq (Chr (Ascii.eqb c)) (chrs l' tail)) in Hm.
    inversion Hm as [| |a b w1 w2 v' Ha Hb| | | | | |]; subst.
    inversion Ha as [p x v' Hpx| | | | | | | |]; subst.
    apply Ascii.eqb_eq in Hpx as <-.
    destruct (IH _ _ eq_refl Hdot Hb) as (w' & -> & Ht). by exists w'.
Qed.

Lemma re_exec_chrs src l tail s :
  source_atoms src = Some l → str_mem "." src = false →
  ¬ occurs src s → re_exec (chrs l tail) s = None.
Proof.
  intros Hl Hdot Hno.
  destruct (re_exec (chrs l tail) s) as [[mb mm mc ma]|] eqn:He; [|done].
  exfalso. apply Hno. destruct (re_exec_Some _ _ _ He) as (-> & Hm & _). simpl in *.
  destruct (chrs_inv _ _ _ _ _ Hl Hdot Hm) as (w' & -> & _).
  exists mb, (w' +:+ ma). by rewrite app_assoc.
Qed.

Lemma re_exec_cdn u cd s : cdn_pattern u = Ok cd → ¬ occurs "//" s → re_exec cd s = None.
Proof.
  intros Hcd Hno. unfold cdn_pattern in Hcd.
  destruct (source_atoms (tmpl_null (host u))) as [hs|]; [|done]. injection Hcd as <-.
  match goal with |- re_exec ?r s = None =>
    destruct (re_exec r s) as [[mb mm mc ma]|] eqn:He; [|done] end.
  exfalso. apply Hno. destruct (re_exec_Some _ _ _ He) as (-> & Hm & _). simpl in *.
  inversion Hm as [| |a b w1 w2 v' Ha Hb| | | | | |]; subst.
  destruct (lits_inv "//" _ _ _ Hb) as (w' & -> & _).
  exists (mb +:+ w1), (w' +:+ ma). by rewrite !app_assoc.
Qed.

Section RewriterEdges.
Context `{Deps}.

(** X13.  For a well-formed configuration whose scheme has no dot, a text
    that holds neither the scheme of the upstream url nor two slashes in a
    row comes out of the rewriter as it went in. *)
Theorem replaceUrls_without_urls_unchanged (str : string) (data : Data) (proto : string) :
  well_formed data →
  protocol (url_parse (proxied data)) = Some proto →
  str_mem "." (slice_0_m1 proto) = false →
  ¬ occurs (slice_0_m1 proto) str →
  ¬ occurs "//" str →
  replaceUrls str data = Ok str.
Proof.
  intros Hwf Hproto Hdot Hscheme Hslash.
  destruct (well_formed_patterns data Hwf) as (proto' & up & cd & Hproto' & Hup & Hcd).
  rewrite Hproto in Hproto'. injection Hproto' as <-.
  destruct (well_formed_parses data Hwf) as [Hp1 Hp2].
  rewrite (replaceUrls_unfold _ _ proto up cd) by done.
  assert (Hnone : re_exec up str = None).
  { unfold upstream_pattern in Hup.
    destruct (source_atoms (slice_0_m1 proto)) as [ps|] eqn:Hps; [|done].
    destruct (source_atoms (tmpl_null _)) as [hs|]; [|done].
    destruct (source_atoms (default "" _)) as [qs|]; [|done].
    injection Hup as <-. by apply (re_exec_chrs (slice_0_m1 proto)). }
  rewrite (re_replace_all_no_match up) by done.
  rewrite (re_replace_all_no_match cd); [done|]. by apply (re_exec_cdn _ _ _ Hcd).
Qed.

Lemma replaceUrls_no_protocol str data :
  protocol (url_parse (proxied data)) = None →
  replaceUrls str data = Throw (default TypeError (url_parse_throws (proxied data))).
Proof.
  intros Hp. unfold replaceUrls, parse_url.
  destruct (url_parse_throws (proxied data)) as [e|]; simpl; [done|]. by rewrite Hp.
Qed.

(** X12.  When the upstream url parses without a protocol, the rewriter
    throws a [TypeError] on every text, the empty one included; so does the
    reconstruction of every body, and that of every header map that holds a
    string.  (Where [url.parse] rejects the upstream url, its exception is
    the one thrown.) *)
Theorem missing_protocol_throws (data : Data) :
  protocol (url_parse (proxied data)) = None →
  (∀ str, replaceUrls str data
          = Throw (default TypeError (url_parse_throws (proxied data)))) ∧
  (∀ chunk record n,
     mapCachedBodyToResponse chunk data record n
     = Throw (default TypeError (url_parse_throws (proxied data)))) ∧
  (∀ hl hs record (σ : store) k s,
     σ !! hl = Some hs → hs !! k = Some (HStr s) →
     (mapCachedHeadersToResponse hl data record σ).2
     = Throw (default TypeError (url_parse_throws (proxied data)))).
Proof.
  intros Hp. split_and!.
  - intros str. by apply replaceUrls_no_protocol.
  - intros chunk record n. unfold mapCachedBodyToResponse. apply bind_Throw.
    unfold lift. by rewrite replaceUrls_no_protocol.
  - intros hl hs record σ k s Hhl Hk.
    rewrite (mapCachedHeadersToResponse_store _ _ _ _ _ Hhl). cbn [snd].
    unfold map_headers. pose proof (copy_headers_spec data hs) as Hc.
    destruct (map_fold _ _ hs) as [mapped [[]|e]]; unfold copied in Hc; simpl in Hc.
    + specialize (Hc k). rewrite Hk in Hc. destruct Hc as (s' & Hs' & _).
      by rewrite replaceUrls_no_protocol in Hs'.
    + destruct Hc as (k' & s' & _ & Hs'). rewrite replaceUrls_no_protocol in Hs' by done.
      by injection Hs' as <-.
Qed.

End RewriterEdges.

(** ** The dots of a host name *)

Lemma chrs_matches_reading src l tail text w v :
  source_atoms src = Some l → reads_as src text = true →
  Matches tail w v → Matches (chrs l tail) (text +:+ w) v.
Proof.
  revert l text. induction src as [|c src IH]; intros l text Hl Hr Hm.
  - destruct text; [|done]. injection Hl as <-. by rewrite app_nil_l.
  - destruct text as [|x text]; [done|]. simpl in Hr. apply andb_true_iff in Hr as [Hx Hr].
    simpl in Hl. destruct (source_atoms src) as [l'|] eqn:Hsrc; [|done].
    change (String x text +:+ w) with (String x "" +:+ (text +:+ w)).
    destruct (Ascii.eqb c ".").
    + injection Hl as <-.
      change (chrs (dot :: l') tail) with (Seq (Chr dot) (chrs l' tail)).
      apply M_Seq; [by constructor|by apply IH].
    + destruct (is_syntax_char c); [done|]. injection Hl as <-.
      change (chrs (Ascii.eqb c :: l') tail) with (Seq (Chr (Ascii.eqb c)) (chrs l' tail)).
      apply M_Seq; [by constructor|by apply IH].
Qed.

Section HostDots.
Context `{Deps}.

(** X14.  The dots of the configured host name are not escaped in the
    upstream pattern: the pattern matches the scheme, a filler, any reading
    of the host name (any character but a line terminator where the name has
    a dot) and, when a port is configured, a filler and the port; so it
    matches at that place in every text that holds such a piece. *)
Theorem upstream_host_dots_are_wildcards (data : Data) (proto : string) (up : re)
    (f g h u v : string) :
  protocol (url_parse (proxied data)) = Some proto →
  upstream_pattern proto (url_parse (proxied data)) = Ok up →
  filler 3 12 f → filler 1 4 g →
  reads_as (tmpl_null (hostname (url_parse (proxied data)))) h = true →
  let piece :=
    slice_0_m1 proto +:+ f +:+ h +:+
    (if truthy (port (url_parse (proxied data)))
     then g +:+ default "" (port (url_parse (proxied data))) else "") in
  Matches up piece v ∧ match_at up (u +:+ piece +:+ v) (String.length u).
Proof.
  intros Hproto Hup Hf Hg Hh piece.
  assert (Hm : Matches up piece v).
  { unfold upstream_pattern in Hup. unfold piece.
    destruct (source_atoms (slice_0_m1 proto)) as [ps|] eqn:Hps; [|done].
    destruct (source_atoms (tmpl_null _)) as [hs|] eqn:Hhs; [|done].
    destruct (source_atoms (default "" _)) as [qs|] eqn:Hqs; [|done].
    injection Hup as <-.
    apply chrs_matches; [done|].
    apply M_Seq; [by apply filler_matches|].
    destruct (truthy (port _)).
    - eapply chrs_matches_reading; [exact Hhs|exact Hh|].
      apply M_Seq; [by apply filler_matches|].
      rewrite <- (app_nil_r (default "" _)).
      apply chrs_matches; [done|]. apply re_eps_matches.
    - eapply chrs_matches_reading; [exact Hhs|exact Hh|]. apply re_eps_matches. }
  split; [done|]. by exists u, piece, v.
Qed.

End HostDots.

(** ** The cookie scrub *)

Lemma str_upper_app s t : str_upper (s +:+ t) = str_upper s +:+ str_upper t.
Proof. induction s as [|c s IH]; [done|]. simpl. by rewrite IH. Qed.

(** A text under the [i] flag matches the texts that are equal to it up to
    the case of letters. *)
Lemma seq_of_i_inv s tail w v :
  Matches (seq_of lit_chr_i s tail) w v →
  ∃ p w', w = p +:+ w' ∧ str_upper p = str_upper s ∧ Matches tail w' v.
Proof.
  revert w. induction s as [|c s IH]; intros w Hm.
  - by exists "", w.
  - change (seq_of lit_chr_i (String c s) tail)
      with (Seq (lit_chr_i c) (seq_of lit_chr_i s tail)) in Hm.
    inversion Hm as [| |a b w1 w2 v' Ha Hb| | | | | |]; subst.
    inversion Ha as [p x v' Hpx| | | | | | | |]; subst.
    apply Ascii.eqb_eq in Hpx.
    destruct (IH _ Hb) as (p' & w' & -> & Hp' & Ht).
    exists (String x p'), w'. split_and!; [done| |done]. simpl. by rewrite Hpx, Hp'.
Qed.

Lemma re_adrum_needs c : ¬ occurs "ADRUM" (str_upper c) → re_exec re_adrum c = None.
Proof.
  intros Hno. destruct (re_exec re_adrum c) as [[mb mm mc ma]|] eqn:He; [|done].
  exfalso. apply Hno. destruct (re_exec_Some _ _ _ He) as (-> & Hm & _). simpl in *.
  destruct (seq_of_i_inv "ADRUM" _ _ _ Hm) as (p & w' & -> & Hp & _).
  exists (str_upper mb), (str_upper (w' +:+ ma)).
  rewrite !str_upper_app, Hp. simpl. by rewrite !app_assoc.
Qed.

Lemma scrub_cookie_no_adrum c : ¬ occurs "ADRUM" (str_upper c) → scrub_cookie (Some c) = c.
Proof.
  intros Hno. rewrite scrub_cookie_Some. unfold re_replace_all. simpl.
  by rewrite re_adrum_needs.
Qed.

Section CookieScrub.
Context `{Deps}.

(** X15.  A cookie that does not hold the letters [ADRUM] in a row, in upper
    or lower case, is not changed by the scrub: when normalisation returns,
    the request is left with the cookie it came with, or, where the flow
    withholds the cookie, the data has it. *)
Theorem cookie_without_adrum_kept (req req1 : Request) (record : bool) (d : SessionData)
    (c : string) :
  mapRequestToCache req record = (req1, Ok d) →
  headers req !! "cookie" = Some c →
  ¬ occurs "ADRUM" (str_upper c) →
  if includes (url req) "authorize?" || bool_decide (url req = "/api/v1/authn")
  then headers req1 !! "cookie" = None ∧ cookie d = Some c
  else headers req1 !! "cookie" = Some c.
Proof.
  intros Hrun Hc Hno. destruct (mapRequestToCache_cases req record) as [(_ & _ & Ht)|Hr].
  { by rewrite Hrun in Ht. }
  rewrite Hrun in Hr.
  destruct (flows_cookie req record
              (canon (truthy (headers req !! "access-control-request-method"))
                 (url req) (headers req)) d) as [Hk Hd]; [by rewrite <- Hr|].
  rewrite <- Hr in Hk. simpl in Hk.
  rewrite canon_lookup, canon_key_cookie, Hc, scrub_cookie_no_adrum in Hk, Hd by done.
  destruct (includes (url req) "authorize?" || bool_decide (url req = "/api/v1/authn"));
    simpl in *; done.
Qed.

End CookieScrub.

(** The fuel of [re_replace_go] and the text already passed do not matter
    once the fuel exceeds the length of the text, for a replacement without
    [$]. *)
Lemma re_replace_go_fuel r rep :
  str_mem "$" rep = false →
  ∀ f1 f2 d1 d2 s,
    String.length s < f1 → String.length s < f2 →
    re_replace_go f1 r rep d1 s = re_replace_go f2 r rep d2 s.
Proof.
  intros Hrep. induction f1 as [|f1 IH]; intros f2 d1 d2 s H1 H2; [lia|].
  destruct f2 as [|f2]; [lia|]. simpl.
  destruct (re_exec r s) as [[mb mm mc ma]|] eqn:He; [|done].
  destruct (re_exec_Some _ _ _ He) as (Hs & _ & _). simpl in *.
  rewrite !get_substitution_plain by done. do 2 f_equal.
  assert (Hlen : String.length s
                 = String.length mb + (String.length mm + String.length ma)).
  { by rewrite Hs, !length_app. }
  destruct mm as [|c mm]; [destruct ma as [|c ma]|]; [done| |].
  - f_equal. simpl in Hlen. apply IH; lia.
  - simpl in Hlen. apply IH; lia.
Qed.

Lemma re_run_seq_of_i {R} lit tail a s cap (k : string → option string → option R) :
  str_upper a = str_upper lit →
  re_run (seq_of lit_chr_i lit tail) (a +:+ s) cap k = re_run tail s cap k.
Proof.
  revert a. induction lit as [|c lit IH]; intros a Ha; destruct a as [|x a]; try done.
  simpl in Ha. injection Ha as Hx Ha.
  change (seq_of lit_chr_i (String c lit) tail)
    with (Seq (lit_chr_i c) (seq_of lit_chr_i lit tail)).
  cbn [re_run lit_chr_i]. rewrite app_cons. rewrite Hx, Ascii.eqb_refl. by apply IH.
Qed.

(** A greedy repetition takes the whole run when what follows the run goes
    through. *)
Lemma rep_match_greedy {R} p lo w s (k : string → option R) x :
  str_forall p w = true → lo ≤ String.length w →
  match s with String c _ => p c = false | "" => True end →
  k s = Some x →
  rep_match p lo None (w +:+ s) k = Some x.
Proof.
  revert lo. induction w as [|c w IH]; intros lo Hw Hlo Hs Hk.
  - simpl in Hlo. assert (lo = 0) as -> by lia. rewrite app_nil_l.
    destruct s as [|c s]; simpl; [done|]. by rewrite Hs.
  - simpl in Hw. apply andb_true_iff in Hw as [Hc Hw]. rewrite app_cons.
    cbn [rep_match]. rewrite Hc. simpl.
    rewrite (IH (pred lo)); [done|done| |done|done]. simpl in Hlo. lia.
Qed.

Lemma str_forall_not_chr c v : str_mem c v = false → str_forall (not_chr c) v = true.
Proof.
  induction v as [|x v IH]; [done|]. simpl. intros Hm.
  apply orb_false_iff in Hm as [Hx Hm]. unfold not_chr at 1. rewrite Hx. simpl. auto.
Qed.

(** The scrub on a text that begins with an [ADRUM] fragment. *)
Lemma re_adrum_here a v tail :
  str_upper a = "ADRUM" → v ≠ "" → str_mem ";" v = false →
  (tail = "" ∨ ∃ ws rest, tail = ";" +:+ ws +:+ rest ∧ str_forall is_js_space ws = true ∧
                          no_lead_space rest) →
  ∃ cap, re_here re_adrum (a +:+ v +:+ tail)
         = Some (match tail with "" => "" | _ => trim_start (str_drop 1 tail) end, cap).
Proof.
  intros Ha Hv Hsemi Htail. unfold re_here, re_adrum.
  rewrite (re_run_seq_of_i "ADRUM") by done. cbn [re_run].
  assert (Hlo : 1 ≤ String.length v) by (destruct v; [done|simpl; lia]).
  destruct Htail as [->|(ws & rest & -> & Hws & Hrest)].
  - eexists. apply rep_match_greedy; [by apply str_forall_not_chr|done|done|].
    simpl. reflexivity.
  - eexists. apply rep_match_greedy; [by apply str_forall_not_chr|done|done|].
    rewrite app_cons, app_nil_l. cbn [re_run lit_chr]. rewrite Ascii.eqb_refl.
    erewrite (rep_match_greedy is_js_space 0 ws rest);
      [|done|lia|by destruct rest|reflexivity].
    f_equal. f_equal. cbn [str_drop].
    clear -Hws Hrest. induction ws as [|c ws IH]; simpl.
    + destruct rest as [|c rest]; [done|]. simpl in *. by rewrite Hrest.
    + simpl in Hws. apply andb_true_iff in Hws as [-> Hws]. auto.
Qed.

Lemma scrub_cookie_fragment a v tail :
  str_upper a = "ADRUM" → v ≠ "" → str_mem ";" v = false →
  (tail = "" ∨ ∃ ws rest, tail = ";" +:+ ws +:+ rest ∧ str_forall is_js_space ws = true ∧
                          no_lead_space rest) →
  scrub_cookie (Some (a +:+ v +:+ tail))
  = scrub_cookie (Some (match tail with "" => "" | _ => trim_start (str_drop 1 tail) end)).
Proof.
  intros Ha Hv Hsemi Htail. rewrite !scrub_cookie_Some.
  destruct (re_adrum_here a v tail Ha Hv Hsemi Htail) as [cap Hhere].
  set (rest := match tail with "" => "" | _ => trim_start (str_drop 1 tail) end) in *.
  set (s := a +:+ v +:+ tail) in *.
  destruct (re_here_Some _ _ _ _ Hhere) as (w & Hs & _).
  assert (Hw : w ≠ "").
  { intros ->. rewrite app_nil_l in Hs.
    assert (String.length s = String.length rest) by (by rewrite Hs).
    unfold s, rest in *. rewrite !length_app in *. destruct a; [done|].
    destruct tail as [|c tail]; simpl in *; [lia|].
    assert (String.length (trim_start tail) ≤ String.length tail); [|lia].
    clear. induction tail as [|c t IH]; simpl; [lia|]. destruct (is_js_space c); simpl; lia. }
  unfold re_replace_all at 1. cbn [re_replace_go]. rewrite re_exec_unfold, Hhere.
  cbn [m_before m_matched m_cap m_after]. rewrite (take_matched s w rest Hs).
  rewrite get_substitution_plain by done. rewrite !app_nil_l.
  destruct w as [|c w]; [done|]. unfold re_replace_all.
  apply re_replace_go_fuel; [done| |lia].
  rewrite Hs, length_app. simpl. lia.
Qed.

(** X16.  The scrub removes an [ADRUM] fragment at the head of a cookie,
    whatever the case of its letters: the five letters, the characters up to
    the next semicolon (at least one), the semicolon and the white space
    after it; what is left is scrubbed in turn.  A fragment that ends the
    cookie is removed as well, and leaves the empty cookie. *)
Theorem adrum_fragment_removed (a v ws rest : string) :
  str_upper a = "ADRUM" → v ≠ "" → str_mem ";" v = false →
  str_forall is_js_space ws = true → no_lead_space rest →
  scrub_cookie (Some (a +:+ v +:+ ";" +:+ ws +:+ rest)) = scrub_cookie (Some rest) ∧
  scrub_cookie (Some (a +:+ v)) = "".
Proof.
  intros Ha Hv Hsemi Hws Hrest. split.
  - rewrite (scrub_cookie_fragment a v (";" +:+ ws +:+ rest)); [|done..|].
    + f_equal. f_equal. rewrite app_cons, app_nil_l. cbn [str_drop].
      clear -Hws Hrest. induction ws as [|c ws IH]; simpl.
      * destruct rest as [|c rest]; [done|]. simpl in *. by rewrite Hrest.
      * simpl in Hws. apply andb_true_iff in Hws as [-> Hws]. auto.
    + right. by exists ws, rest.
  - rewrite <- (app_nil_r v). rewrite (scrub_cookie_fragment a v ""); [done|done..|by left].
Qed.

(** ** The logger's [wrap] *)

Lemma str_forall_app p (s t : string) :
  str_forall p (s +:+ t) = str_forall p s && str_forall p t.
Proof. induction s as [|c s IH]; [done|]. simpl. by rewrite IH, andb_assoc. Qed.

Lemma str_filter_app p (s t : string) :
  str_filter p (s +:+ t) = str_filter p s +:+ str_filter p t.
Proof. induction s as [|c s IH]; [done|]. simpl. rewrite IH. by destruct (p c). Qed.

Lemma str_filter_all p s : str_forall p s = true → str_filter p s = s.
Proof.
  induction s as [|c s IH]; [done|]. simpl. intros Hs.
  apply andb_true_iff in Hs as [-> Hs]. by rewrite IH.
Qed.

Lemma str_forall_impl (p q : ascii → bool) s :
  (∀ c, p c = true → q c = true) → str_forall p s = true → str_forall q s = true.
Proof.
  intros Hpq. induction s as [|c s IH]; [done|]. simpl. intros Hs.
  apply andb_true_iff in Hs as [Hc Hs]. by rewrite (Hpq _ Hc), IH.
Qed.

Lemma join_empty_cons x l : join "" (x :: l) = x +:+ join "" l.
Proof. destruct l; simpl; [by rewrite app_nil_r|done]. Qed.

Lemma join_empty_app l1 l2 : join "" (l1 ++ l2) = join "" l1 +:+ join "" l2.
Proof.
  induction l1 as [|x l1 IH]; [done|].
  change ((x :: l1) ++ l2)%list with (x :: (l1 ++ l2))%list.
  by rewrite !join_empty_cons, IH, app_assoc.
Qed.

Lemma ansi_param_dot c : ansi_param c = true → dot c = true.
Proof.
  destruct c as [[] [] [] [] [] [] [] []]; vm_compute; congruence.
Qed.

(** A colour sequence holds no line terminator. *)
Lemma re_ansi_dot w v : Matches re_ansi w v → str_forall dot w = true.
Proof.
  intros Hm. destruct (lits_inv _ _ _ _ Hm) as (w' & -> & Hm').
  inversion Hm' as [| |a b w1 w2 v' Ha Hb| | | | | |]; subst.
  inversion Ha as [| | | | | | |p lo hi w0 v0 Hw1 _ _|]; subst.
  inversion Hb as [p x v' Hpx| | | | | | | |]; subst.
  apply Ascii.eqb_eq in Hpx as <-.
  rewrite !str_forall_app. rewrite (str_forall_impl _ _ _ ansi_param_dot Hw1). done.
Qed.

Lemma ansi_run_spec fuel s :
  ∃ w, s = w +:+ ansi_run fuel s ∧ str_forall dot w = true.
Proof.
  revert s. induction fuel as [|fuel IH]; intros s; [by exists ""|].
  simpl. destruct (re_here re_ansi s) as [[s' cap]|] eqn:Hh; [|by exists ""].
  destruct (re_here_Some _ _ _ _ Hh) as (w & -> & Hm).
  destruct (IH s') as (w' & Hs' & Hw'). exists (w +:+ w'). split.
  - by rewrite app_assoc, <- Hs'.
  - by rewrite str_forall_app, (re_ansi_dot _ _ Hm), Hw'.
Qed.

(** What [mb_char] gives: a piece without line terminators and the text
    after it; the piece is empty only at the end of the text and before a
    line terminator. *)
Lemma mb_char_spec s :
  s = (mb_char s).1 +:+ (mb_char s).2 ∧
  str_forall dot (mb_char s).1 = true ∧
  ((mb_char s).1 = "" →
   match s with "" => True | String c _ => dot c = false end).
Proof.
  unfold mb_char. cbn [fst snd].
  destruct (ansi_run_spec (String.length s) s) as (w & Hs & Hw).
  set (s1 := ansi_run (String.length s) s) in *.
  assert (Hcase : ∃ m s2,
    match s1 with String c s' => if dot c then s' else s1 | "" => "" end = s2 ∧
    s = m +:+ s2 ∧ str_forall dot m = true ∧
    (m = "" → match s with "" => True | String c _ => dot c = false end)).
  { destruct s1 as [|c s'] eqn:Hs1.
    - exists w, "". split_and!; [done..|]. intros ->. by rewrite Hs.
    - destruct (dot c) eqn:Hc.
      + exists (w +:+ String c ""), s'. split_and!; [done| | |].
        * by rewrite app_assoc.
        * by rewrite str_forall_app, Hw; simpl; rewrite Hc.
        * by destruct w.
      + exists w, (String c s'). split_and!; [done..|]. intros ->. rewrite Hs. simpl. exact Hc. }
  destruct Hcase as (m & s2 & -> & Hs2 & Hm & He).
  by rewrite (take_matched s m s2 Hs2).
Qed.

(** The matches put together are the text without its line terminators. *)
Lemma mb_chars_join fuel s :
  String.length s < fuel → join "" (mb_chars fuel s) = str_filter dot s.
Proof.
  revert s. induction fuel as [|fuel IH]; intros s Hlen; [lia|].
  cbn [mb_chars]. destruct (mb_char_spec s) as (Hs & Hm & He).
  destruct (mb_char s) as [m rest]. cbn [fst snd] in *.
  destruct m as [|x m].
  - specialize (He eq_refl). destruct s as [|c s]; [done|].
    rewrite join_empty_cons, app_nil_l. simpl. rewrite He. apply IH. simpl in Hlen. lia.
  - rewrite join_empty_cons, IH.
    + rewrite Hs. by rewrite str_filter_app, (str_filter_all _ _ Hm).
    + rewrite Hs, length_app in Hlen. simpl in Hlen. lia.
Qed.

Lemma rem_is_0_zero i : rem_is_0 i 0 = false.
Proof. done. Qed.

Lemma rem_is_0_opp i width : rem_is_0 i (- width) = rem_is_0 i width.
Proof.
  unfold rem_is_0. rewrite Z.rem_opp_r'. f_equal. f_equal.
  destruct (Z.eqb_spec width 0) as [->|Hw]; [done|]. apply Z.eqb_neq. lia.
Qed.

Lemma concat_imap_singleton (g : nat → string → list string) l :
  (∀ i c, g i c = [c]) → concat (imap g l) = l.
Proof.
  revert g. induction l as [|x l IH]; intros g Hg; [done|].
  cbn [imap concat]. rewrite Hg. simpl. f_equal. apply IH. intros i c. apply Hg.
Qed.

(** Adding line feeds to the pieces does not change the other characters. *)
Lemma filter_pushed (g : nat → string → list string) l :
  (∀ i c, g i c = [c] ∨ g i c = [line_feed; c]) →
  str_filter dot (join "" (concat (imap g l))) = str_filter dot (join "" l).
Proof.
  revert g. induction l as [|x l IH]; intros g Hg; [done|].
  cbn [imap concat]. rewrite join_empty_app, join_empty_cons, !str_filter_app.
  rewrite IH by (intros i c; apply Hg). f_equal.
  destruct (Hg 0 x) as [->| ->]; simpl; by rewrite ?app_nil_r.
Qed.

Lemma wrap_push_cases width i c :
  wrap_push width i c = [c] ∨ wrap_push width i c = [line_feed; c].
Proof. unfold wrap_push. destruct (_ && _); auto. Qed.

(** X17.  [wrap] adds line feeds and drops line terminators, and does
    nothing else to the text: whatever the width, the characters of the
    result other than line terminators are those of the text, in order. *)
Theorem wrap_keeps_other_characters (str : string) (width : Z) :
  str_filter dot (wrap str width) = str_filter dot str.
Proof.
  unfold wrap. rewrite filter_pushed by apply wrap_push_cases.
  rewrite mb_chars_join by lia.
  apply str_filter_all. clear. induction str as [|c s IH]; [done|].
  simpl. destruct (dot c) eqn:Hc; [|done]. simpl. by rewrite Hc.
Qed.

(** X18.  The width 0 never wraps: the result is the text without its line
    terminators.  A negative width wraps as its absolute value does. *)
Theorem wrap_zero_and_negative_width (str : string) (width : Z) :
  wrap str 0 = str_filter dot str ∧
  wrap str (- width) = wrap str width.
Proof.
  split.
  - unfold wrap. rewrite concat_imap_singleton.
    + apply mb_chars_join. lia.
    + intros i c. unfold wrap_push. by rewrite rem_is_0_zero, andb_false_r.
  - unfold wrap. do 2 f_equal. apply imap_ext. intros i c _.
    unfold wrap_push. by rewrite rem_is_0_opp.
Qed.

Lemma re_ansi_not_here c s : Ascii.eqb c esc = false → re_here re_ansi (String c s) = None.
Proof.
  intros Hc. unfold re_here, re_ansi, lits. cbn [seq_of re_run lit_chr].
  rewrite Ascii.eqb_sym in Hc. by rewrite Hc.
Qed.

Lemma mb_char_plain c s : plain_char c = true → mb_char (String c s) = (String c "", s).
Proof.
  intros Hc. apply andb_true_iff in Hc as [Hdot Hesc]. apply negb_true_iff in Hesc.
  unfold mb_char. cbn [String.length ansi_run]. rewrite re_ansi_not_here by done.
  rewrite Hdot. f_equal. by apply (take_matched (String c s) (String c "") s).
Qed.

Lemma mb_chars_plain fuel s :
  str_forall plain_char s = true → String.length s < fuel → mb_chars fuel s = units s.
Proof.
  revert s. induction fuel as [|fuel IH]; intros s Hs Hlen; [lia|].
  destruct s as [|c s]; [done|].
  simpl in Hs. apply andb_true_iff in Hs as [Hc Hs].
  cbn [mb_chars units]. rewrite mb_char_plain by done. f_equal. apply IH; [done|].
  simpl in Hlen. lia.
Qed.

Lemma wrap_plain s width :
  str_forall plain_char s = true → wrap s width = wrap_from width 0 (units s).
Proof. intros Hs. unfold wrap, wrap_from. by rewrite mb_chars_plain by (done || lia). Qed.

Lemma wrap_from_cons width i x l :
  wrap_from width i (x :: l) = join "" (wrap_push width i x) +:+ wrap_from width (S i) l.
Proof.
  unfold wrap_from. cbn [imap concat]. rewrite join_empty_app. rewrite Nat.add_0_r.
  do 3 f_equal. apply imap_ext. intros j y _. simpl. f_equal. lia.
Qed.

Lemma wrap_push_inside (w i : nat) c :
  i < w → wrap_push (Z.of_nat w) i c = [c].
Proof.
  intros Hi. unfold wrap_push, rem_is_0. destruct i as [|i]; [done|].
  rewrite Z.rem_small by lia.
  rewrite (proj2 (Z.eqb_neq (Z.of_nat (S i)) 0)) by lia. by rewrite andb_false_r.
Qed.

Lemma wrap_push_at_width (w : nat) c :
  0 < w → wrap_push (Z.of_nat w) w c = [line_feed; c].
Proof.
  intros Hw. unfold wrap_push, rem_is_0. rewrite Z.rem_same by lia.
  rewrite (proj2 (Nat.eqb_neq w 0)) by lia.
  by rewrite (proj2 (Z.eqb_neq (Z.of_nat w) 0)) by lia.
Qed.

Lemma wrap_push_shift (w j : nat) c :
  0 < w → wrap_push (Z.of_nat w) (w + S j) c = wrap_push (Z.of_nat w) (S j) c.
Proof.
  intros Hw. unfold wrap_push, rem_is_0.
  rewrite (proj2 (Nat.eqb_neq (w + S j) 0)) by lia.
  cbn [Nat.eqb negb andb]. do 2 f_equal.
  rewrite !Z.rem_mod_nonneg by lia.
  replace (Z.of_nat (w + S j)) with (Z.of_nat (S j) + 1 * Z.of_nat w)%Z by lia.
  by rewrite Z.mod_add by lia.
Qed.

Lemma wrap_from_short (w i : nat) u :
  i + String.length u < w → wrap_from (Z.of_nat w) i (units u) = u.
Proof.
  revert i. induction u as [|c u IH]; intros i Hlen.
  - cbn [units]. rewrite wrap_from_cons, wrap_push_inside by (simpl in Hlen; lia). done.
  - cbn [units]. rewrite wrap_from_cons, wrap_push_inside by (simpl in Hlen; lia).
    rewrite IH by (simpl in Hlen; lia). done.
Qed.

Lemma units_cons s : ∃ x l, units s = x :: l.
Proof. destruct s; simpl; eauto. Qed.

Lemma wrap_from_full (w i : nat) u rest :
  0 < w → i + String.length u = w →
  wrap_from (Z.of_nat w) i (units (u +:+ rest))
  = u +:+ line_feed +:+ wrap_from (Z.of_nat w) 0 (units rest).
Proof.
  intros Hw. revert i. induction u as [|c u IH]; intros i Hlen.
  - simpl in Hlen. assert (i = w) as -> by lia. rewrite app_nil_l.
    destruct (units_cons rest) as (x & l & ->).
    rewrite !wrap_from_cons, wrap_push_at_width by done.
    unfold wrap_push at 1. cbn [Nat.eqb negb andb].
    change (join "" [line_feed; x]) with (line_feed +:+ "" +:+ x).
    rewrite !app_nil_l. rewrite app_assoc. do 2 f_equal.
    unfold wrap_from. do 2 f_equal. apply imap_ext. intros j y _. simpl.
    replace (S (w + j)) with (w + S j) by lia. by apply wrap_push_shift.
  - rewrite app_cons. cbn [units].
    rewrite wrap_from_cons, wrap_push_inside by (simpl in Hlen; lia).
    rewrite IH by (simpl in Hlen; lia). done.
Qed.

(** X19.  On a text without colour sequences and line terminators, [wrap]
    with a positive width cuts after every [width] characters: a text
    shorter than the width is returned as it is, and a text that begins with
    [width] characters is these characters, a line feed, and the rest
    wrapped.  So a text whose length is a multiple of the width, other than
    the empty text, ends with a line feed. *)
Theorem wrap_plain_text (u rest : string) (width : Z) :
  str_forall plain_char u = true →
  str_forall plain_char rest = true →
  ((Z.of_nat (String.length u) < width)%Z → wrap u width = u) ∧
  ((0 < width)%Z → Z.of_nat (String.length u) = width →
   wrap (u +:+ rest) width = u +:+ line_feed +:+ wrap rest width).
Proof.
  intros Hu Hrest. split.
  - intros Hlen. rewrite wrap_plain by done.
    replace width with (Z.of_nat (Z.to_nat width)) by lia.
    apply wrap_from_short. lia.
  - intros Hpos Hlen. rewrite !wrap_plain by (by rewrite ?str_forall_app, ?Hu, ?Hrest).
    subst width. apply wrap_from_full; lia.
Qed.

(** ** The further properties on concrete requests and texts *)

(** X20 on an authorize request whose url [url.parse] rejects: the call
    throws after the cookie is scrubbed and before it is withheld. *)
Lemma thrown_normalisation_is_partial_witness :
  url_parse_throws (Deps:=node_deps) (url bracket_request) = Some TypeError ∧
  (mapRequestToCache (H:=node_deps) bracket_request false).2 = Throw TypeError ∧
  url (mapRequestToCache (H:=node_deps) bracket_request false).1 = url bracket_request ∧
  headers (mapRequestToCache (H:=node_deps) bracket_request false).1 !! "cookie"
    = Some "sid=abc" ∧
  headers (mapRequestToCache (H:=node_deps) bracket_request false).1 !! "pragma"
    = Some "no-cache".
Proof.
  assert (Hno : ¬ (truthy (headers bracket_request !! "access-control-request-method") = true ∧
                   headers bracket_request !! "access-control-request-headers" = None)).
  { intros [Hp _]. vm_compute in Hp. discriminate Hp. }
  destruct (@thrown_normalisation_is_partial node_deps bracket_request false)
    as (Hthrows & _ & Hlate).
  split; [reflexivity|]. split.
  - apply Hthrows. right. split_and!; [exact Hno|reflexivity|reflexivity].
  - destruct (Hlate TypeError Hno eq_refl eq_refl) as (Hurl & _ & _ & Hcookie & _ & Hpragma).
    split; [exact Hurl|]. split; [|exact Hpragma].
    rewrite Hcookie. vm_compute. reflexivity.
Defined.

(** X2 on the authorize request, whose [accept] names [text/html]. *)
Lemma accept_header_classes_witness :
  headers authorize_request !! "accept" = Some "text/html, */*" ∧
  headers (mapRequestToCache (H:=node_deps) authorize_request false).1 !! "accept"
    = Some accept_html.
Proof.
  split; [reflexivity|].
  exact (@accept_header_classes node_deps authorize_request false "text/html, */*" eq_refl).
Defined.

(** X5 on the [host] header of the authorize request. *)
Lemma other_headers_untouched_witness :
  headers (mapRequestToCache (H:=node_deps) authorize_request false).1 !! "host"
    = Some "localhost:7777".
Proof.
  rewrite (@other_headers_untouched node_deps authorize_request false "host");
    [reflexivity|].
  apply (bool_decide_unpack _). by vm_compute.
Defined.

(** X6 on the authorize request: the cookie is withheld and returned. *)
Lemma cookie_withheld_or_scrubbed_witness :
  headers (mapRequestToCache (H:=node_deps) authorize_request false).1 !! "cookie" = None ∧
  result_map cookie (mapRequestToCache (H:=node_deps) authorize_request false).2
    = Ok (Some "session=abc").
Proof.
  assert (Hrun : mapRequestToCache (H:=node_deps) authorize_request false
    = ((mapRequestToCache (H:=node_deps) authorize_request false).1,
       Ok {| isAuthorizeReq := true; responseMode := Some (QStr "okta_post_message");
             state := Some (QStr "st-1"); nonce := Some (QStr "n-1");
             cookie := Some "session=abc";
             isRedirectCallback := false; isTokenReq := false |}))
    by (vm_compute; reflexivity).
  destruct (@cookie_withheld_or_scrubbed node_deps _ _ _ _ Hrun) as (Hh & _ & _).
  split; [exact Hh|]. rewrite Hrun. reflexivity.
Defined.

(** X7 on the authorize request. *)
Lemma flow_flags_exclusive_witness :
  result_map isAuthorizeReq (mapRequestToCache (H:=node_deps) authorize_request false).2
    = Ok true ∧
  includes (url authorize_request) "authorize?" = true.
Proof.
  assert (Hrun : mapRequestToCache (H:=node_deps) authorize_request false
    = ((mapRequestToCache (H:=node_deps) authorize_request false).1,
       Ok {| isAuthorizeReq := true; responseMode := Some (QStr "okta_post_message");
             state := Some (QStr "st-1"); nonce := Some (QStr "n-1");
             cookie := Some "session=abc";
             isRedirectCallback := false; isTokenReq := false |}))
    by (vm_compute; reflexivity).
  destruct (@flow_flags_exclusive node_deps _ _ _ _ Hrun) as (Hflag & _).
  split; [by rewrite Hrun|]. by rewrite <- Hflag.
Defined.


(** X12 on a configuration whose upstream url has no scheme. *)
Lemma missing_protocol_throws_witness :
  protocol (url_parse (Deps:=node_deps) (proxied schemeless_data)) = None ∧
  mapCachedBodyToResponse (H:=node_deps) token_response schemeless_data false 0
    = Throw TypeError.
Proof.
  split; [reflexivity|].
  destruct (@missing_protocol_throws node_deps schemeless_data eq_refl) as (_ & Hbody & _).
  apply Hbody.
Defined.

(** X13 on a JSON text without urls. *)
Lemma replaceUrls_without_urls_unchanged_witness :
  well_formed (H:=node_deps) (example_data no_session) ∧
  replaceUrls (H:=node_deps) "{ sub: 00u1, scope: openid http }" (example_data no_session)
    = Ok "{ sub: 00u1, scope: openid http }".
Proof.
  assert (Hwf : well_formed (H:=node_deps) (example_data no_session)).
  { split_and!; [reflexivity..|]. exists "https:". split_and!; [reflexivity|vm_compute; eauto..]. }
  split; [exact Hwf|].
  apply (@replaceUrls_without_urls_unchanged node_deps _ _ "https:" Hwf eq_refl eq_refl).
  - apply str_find_None. vm_compute. reflexivity.
  - apply str_find_None. vm_compute. reflexivity.
Defined.

(** X14: a host that differs from the upstream host at the dots only. *)
Lemma upstream_host_dots_are_wildcards_witness :
  reads_as "upstream.example.com" "upstream-example_com" = true ∧
  ∃ up,
    upstream_pattern "https:" (url_parse (Deps:=node_deps) "https://upstream.example.com:1802")
      = Ok up ∧
    Matches up "https://upstream-example_com:1802" "/x".
Proof.
  split; [reflexivity|]. eexists. split; [vm_compute; reflexivity|].
  refine (proj1 (@upstream_host_dots_are_wildcards node_deps (example_data no_session)
                   "https:" _ "://" ":" "upstream-example_com" "" "/x"
                   eq_refl eq_refl _ _ eq_refl)).
  - split_and!; [simpl; lia..|reflexivity].
  - split_and!; [simpl; lia..|reflexivity].
Defined.

(** X15 on a request with a session cookie. *)
Lemma cookie_without_adrum_kept_witness :
  headers session_request !! "cookie" = Some "sid=abc" ∧
  headers (mapRequestToCache (H:=node_deps) session_request false).1 !! "cookie"
    = Some "sid=abc".
Proof.
  split; [reflexivity|].
  assert (Hrun : mapRequestToCache (H:=node_deps) session_request false
    = ((mapRequestToCache (H:=node_deps) session_request false).1, Ok no_session))
    by (vm_compute; reflexivity).
  refine (@cookie_without_adrum_kept node_deps _ _ _ _ "sid=abc" Hrun eq_refl _).
  apply str_find_None. vm_compute. reflexivity.
Defined.

(** X16 on a cookie that begins with a tracking fragment in lower case. *)
Lemma adrum_fragment_removed_witness :
  scrub_cookie (Some "adrum_BT=x;  sid=1") = scrub_cookie (Some "sid=1") ∧
  scrub_cookie (Some "sid=1") = "sid=1".
Proof.
  split; [|vm_compute; reflexivity].
  refine (proj1 (adrum_fragment_removed "adrum" "_BT=x" "  " "sid=1" eq_refl _ eq_refl
                   eq_refl _)); done.
Defined.

(** X19 on four letters and the width 2. *)
Lemma wrap_plain_text_witness :
  wrap "abcd" 2 = "ab" +:+ line_feed +:+ wrap "cd" 2 ∧
  wrap "a" 2 = "a".
Proof.
  split.
  - refine (proj2 (wrap_plain_text "ab" "cd" 2 eq_refl eq_refl) _ _); [lia|reflexivity].
  - refine (proj1 (wrap_plain_text "a" "" 2 eq_refl eq_refl) _). simpl. lia.
Defined.

